(** * pubsub/redis.go: the Redis subscriber of anycable-go

    A shallow embedding of [RedisSubscriber], its supervisor [Start], one
    session [listen] and the backoff calculator [nextRetry].

    Conventions.
    - Go's [int] and [time.Duration] are 64-bit two's-complement integers
      (the amd64/arm64 targets): they are [Z] values kept in range by [wrap].
    - A Go [error] interface value is [goerror]: [None] is [nil], [Some e] a
      non-nil error with message [e].
    - Everything the code does not decide itself (what the network answers,
      which goroutine moves next, what [rand.Intn] draws) is an explicit
      input: an [attempt] per session. *)

From Stdlib Require Import ZArith List String Ascii Bool Lia.
From Stdlib.Strings Require Import Byte.
Import ListNotations.
Open Scope Z_scope.

(** ** Machine integers *)

Definition intBits : Z := 64.
Definition maxInt : Z := 2 ^ (intBits - 1) - 1.
Definition minInt : Z := - 2 ^ (intBits - 1).

(** Two's-complement wrap-around of a mathematical integer into [int]. *)
Definition wrap (z : Z) : Z :=
  (z + 2 ^ (intBits - 1)) mod 2 ^ intBits - 2 ^ (intBits - 1).

Definition add (a b : Z) : Z := wrap (a + b).
Definition mul (a b : Z) : Z := wrap (a * b).

(** ** Values shared by the model *)

Definition error : Type := string.
Definition goerror : Type := option error.
Definition bytes : Type := list byte.

(** [errors.New] *)
Definition errors_New (msg : string) : goerror := Some msg.

(** ** math/rand *)

Module rand.

(** Modelled from the spec: [rand.Intn] is standard-library code outside
    src/.  The spec gives its range, rand[0, n); a bound [n <= 0] makes it
    panic ([None]).  The generator's state is the input [draw]; every value
    of the range is the result for some draw. *)
Definition Intn (draw n : Z) : option Z :=
  if n <=? 0 then None else Some (draw mod n).

End rand.

(** ** time *)

Module time.

(** [time.Second], in nanoseconds. *)
Definition Second : Z := 1000000000.
Definition Millisecond : Z := 1000000.
Definition Minute : Z := 60 * Second.

End time.

(** ** The backoff calculator *)

Definition maxReconnectAttempts : Z := 5.

(** [nextRetry(step)]: the duration in nanoseconds, [None] when [rand.Intn]
    panics. *)
Definition nextRetry (draw step : Z) : option Z :=
  match rand.Intn draw (mul step 4) with
  | None => None
  | Some r =>
      let secs := add (mul step step) (mul r (add step 1)) in
      Some (mul secs time.Second)
  end.

(** ** The subscriber (lines 20-46)

    [node] is represented by the calls made to it and [log] by the lines
    written to it, both recorded as [obs] in the traces below. *)

Record RedisSubscriber : Type := mkRedisSubscriber {
  url : string;
  sentinelsEnabled : bool;
  sentinels : string;
  password : string;
  masterName : string;
  channel : string;
  reconnectAttempt : Z
}.

Definition NewRedisSubscriber (url : string) (sentinelsEnabled : bool)
    (sentinels masterName password channel : string) : RedisSubscriber :=
  {| url := url;
     sentinelsEnabled := sentinelsEnabled;
     sentinels := sentinels;
     password := password;
     masterName := masterName;
     channel := channel;
     reconnectAttempt := 0 |}.

(** Assignment to the field [s.reconnectAttempt]. *)
Definition set_reconnectAttempt (n : Z) (s : RedisSubscriber) : RedisSubscriber :=
  {| url := url s;
     sentinelsEnabled := sentinelsEnabled s;
     sentinels := sentinels s;
     password := password s;
     masterName := masterName s;
     channel := channel s;
     reconnectAttempt := n |}.

(** ** What the outside world answers *)

Inductive result (A : Type) : Type :=
| Ok (a : A)
| Err (e : error).
Arguments Ok {A} a.
Arguments Err {A} e.

(** One run of the pool's [Dial] closure meets: the answer of
    [sntnl.MasterAddr()], and the outcome of [redis.Dial] to that address with
    the password, given as the role the reached server reports. *)
Record dial_try : Type := {
  MasterAddr : result string;
  tcp : string -> string -> result string  (* address, password *)
}.

(** ** strings *)

Module strings.

(** [strings.Split(s, sep)] for a one-character separator. *)
Fixpoint Split (s : string) (sep : ascii) : list string :=
  match s with
  | EmptyString => [EmptyString]
  | String c rest =>
      if Ascii.eqb c sep then EmptyString :: Split rest sep
      else match Split rest sep with
           | [] => [String c EmptyString]
           | w :: ws => String c w :: ws
           end
  end.

End strings.

(** ** The redigo client, as far as [listen] uses it *)

Module redis.

(** An open connection: the address it reached and the role its server
    answers to a ROLE probe. *)
Record Conn : Type := { addr : string; role : string }.

(** What a [redis.Conn] interface value can hold: an open connection, or
    the pool's stand-in that fails every command with [e]. *)
Inductive handle : Type :=
| open (c : Conn)
| errorConn (e : error).

(** The dynamic types [psc.Receive()] returns. *)
Inductive reply : Type :=
| Message (channel : string) (data : bytes)
| Subscription (kind channel : string) (count : Z)
| Pong (data : string)
| Error (e : error).

(** [psc.Subscribe(channel)]: an [errorConn] fails with its own error, an
    open connection answers [answer]. *)
Definition Subscribe (c : handle) (answer : goerror) : goerror :=
  match c with
  | errorConn e => Some e
  | open _ => answer
  end.

(** The fields of [redis.Pool] that [listen] sets. *)
Record Pool : Type := {
  MaxIdle : Z;
  MaxActive : Z;
  Wait : bool;
  IdleTimeout : Z;
  Dial : dial_try -> result Conn;
  TestOnBorrow : Conn -> goerror
}.

Inductive pool_event : Type :=
| Dialled (r : result Conn)
| Tested (c : Conn) (verdict : goerror)
| Closed (c : Conn).

(** Modelled from the spec: [Pool.Get] is code of the redigo library and
    is not in this repository.  The spec says of it: every connection taken
    from the pool is validated with the borrow-time check before being
    returned to the caller, and failing validation causes the pool to dial
    again.  [dial] is that loop over the dials the network allows; a dial
    error ends it with the [errorConn] that [Get] hands out on failure;
    [None] means the pool is still dialling when [net] ends. *)
Fixpoint dial (p : Pool) (net : list dial_try) : option handle * list pool_event :=
  match net with
  | [] => (None, [])
  | n :: net' =>
      match Dial p n with
      | Err e => (Some (errorConn e), [Dialled (Err e)])
      | Ok c =>
          match TestOnBorrow p c with
          | None => (Some (open c), [Dialled (Ok c); Tested c None])
          | Some v =>
              let (r, l) := dial p net' in
              (r, Dialled (Ok c) :: Tested c (Some v) :: Closed c :: l)
          end
      end
  end.

(** Modelled from the spec: [Pool.Get] (see [dial]) on a pool holding the
    idle connections [idle]: pooled connections are tried first, each one
    validated; one that fails is closed and the pool moves on, in the end
    to dialling. *)
Fixpoint Get (p : Pool) (idle : list Conn) (net : list dial_try)
    : option handle * list pool_event :=
  match idle with
  | [] => dial p net
  | c :: idle' =>
      match TestOnBorrow p c with
      | None => (Some (open c), [Tested c None])
      | Some v =>
          let (r, l) := Get p idle' net in
          (r, Tested c (Some v) :: Closed c :: l)
      end
  end.

End redis.

Module sentinel.

(** Modelled from the spec: [sentinel.TestRole] is library code outside
    src/; the spec calls it the role-check probe.  It compares the role the
    connection's server reports with [expectedRole]. *)
Definition TestRole (c : redis.Conn) (expectedRole : string) : bool :=
  String.eqb (redis.role c) expectedRole.

(** The fields of [sentinel.Sentinel] that [listen] sets; [DialTimeout] is
    the timeout its [Dial] closure passes to [redis.Dial]. *)
Record Sentinel : Type := {
  Addrs : list string;
  MasterName : string;
  DialTimeout : Z
}.

End sentinel.

(** ** Sentinel mode (lines 82-135) *)

Definition sntnl (s : RedisSubscriber) : sentinel.Sentinel :=
  {| sentinel.Addrs := strings.Split (sentinels s) ","%char;
     sentinel.MasterName := masterName s;
     sentinel.DialTimeout := 500 * time.Millisecond |}.

(** The pool's [Dial] closure (lines 111-122). *)
Definition poolDial (s : RedisSubscriber) (n : dial_try) : result redis.Conn :=
  match MasterAddr n with
  | Err e => Err e
  | Ok masterAddr =>
      match tcp n masterAddr (password s) with
      | Err e => Err e
      | Ok r => Ok {| redis.addr := masterAddr; redis.role := r |}
      end
  end.

(** The pool's [TestOnBorrow] closure (lines 123-129). *)
Definition poolTestOnBorrow (c : redis.Conn) : goerror :=
  if negb (sentinel.TestRole c "master") then errors_New "Role check failed"
  else None.

(** The pool literal (lines 106-130). *)
Definition pool (s : RedisSubscriber) : redis.Pool :=
  {| redis.MaxIdle := 3;
     redis.MaxActive := 64;
     redis.Wait := true;
     redis.IdleTimeout := 240 * time.Second;
     redis.Dial := poolDial s;
     redis.TestOnBorrow := poolTestOnBorrow |}.

(** ** One live session (lines 154-190)

    After a successful subscribe two activities run: the receive goroutine
    (lines 156-170) and the foreground ping loop (lines 172-189).  They
    share the channel [done] only.  A state records where each activity
    stands, the contents of [done], and what has happened so far. *)

(** The foreground: in the [select] of the loop, past the loop and blocked
    on [<-done] (line 189), or returned from [listen]. *)
Inductive foreground : Type :=
| Selecting
| Draining
| Returned (r : goerror).

(** The goroutine: about to call [psc.Receive()], or at [done <- v]. *)
Inductive background : Type :=
| Receiving
| Sending (v : error).

Record session : Type := mkSession {
  fg : foreground;
  err : goerror;             (* listen's variable err *)
  bg : background;
  done : list goerror;       (* buffered values of the channel, oldest first *)
  received : list redis.reply;  (* results of psc.Receive(), oldest first *)
  handled : list bytes;      (* arguments of node.HandlePubsub, oldest first *)
  written : list goerror;    (* values sent on done *)
  taken : list goerror;      (* values received from done *)
  pings : list goerror;      (* results of psc.Ping *)
  unsubscribed : bool        (* psc.Unsubscribe() has been called *)
}.

(** [make(chan error, 1)] *)
Definition doneCap : nat := 1.

(** The state right after [go func() {...}()], with [err == nil]. *)
Definition live : session :=
  {| fg := Selecting; err := None; bg := Receiving; done := [];
     received := []; handled := []; written := []; taken := [];
     pings := []; unsubscribed := false |}.

(** The moves of a session.  What the connection answers is part of the
    move. *)
Inductive action : Type :=
| Receive (v : redis.reply)  (* the goroutine's psc.Receive() returns v *)
| Send                       (* the goroutine's done <- v goes through *)
| Tick (r : goerror)         (* select takes <-ticker.C and psc.Ping returns r *)
| Done.                      (* the foreground receives from done *)

(** The type switch of lines 158-168 on a received value.  The [break] of
    line 167 leaves the [switch], not the [for]: after the send the goroutine
    is back at [psc.Receive()]. *)
Definition dispatch (v : redis.reply) (st : session) : session :=
  match v with
  | redis.Message _ data =>
      mkSession (fg st) (err st) Receiving (done st) (received st ++ [v])
        (handled st ++ [data]) (written st) (taken st) (pings st) (unsubscribed st)
  | redis.Subscription _ _ _ | redis.Pong _ =>
      mkSession (fg st) (err st) Receiving (done st) (received st ++ [v])
        (handled st) (written st) (taken st) (pings st) (unsubscribed st)
  | redis.Error e =>
      mkSession (fg st) (err st) (Sending e) (done st) (received st ++ [v])
        (handled st) (written st) (taken st) (pings st) (unsubscribed st)
  end.

(** The ticker case (lines 178-181) followed, when the ping fails, by the
    exit from the loop and [psc.Unsubscribe()] (line 188). *)
Definition tick (r : goerror) (st : session) : session :=
  match r with
  | None =>
      mkSession Selecting r (bg st) (done st) (received st) (handled st)
        (written st) (taken st) (pings st ++ [r]) (unsubscribed st)
  | Some _ =>
      mkSession Draining r (bg st) (done st) (received st) (handled st)
        (written st) (taken st) (pings st ++ [r]) true
  end.

(** One move; [None] when the activity asked to move is blocked or gone. *)
Definition step (a : action) (st : session) : option session :=
  match a with
  | Receive v =>
      match bg st with
      | Receiving => Some (dispatch v st)
      | Sending _ => None
      end
  | Send =>
      match bg st with
      | Sending e =>
          if (List.length (done st) <? doneCap)%nat then
            Some (mkSession (fg st) (err st) Receiving (done st ++ [Some e])
                    (received st) (handled st) (written st ++ [Some e])
                    (taken st) (pings st) (unsubscribed st))
          else None
      | Receiving => None
      end
  | Tick r =>
      match fg st with
      | Selecting => Some (tick r st)
      | _ => None
      end
  | Done =>
      match fg st, done st with
      | Returned _, _ => None
      | _, [] => None
      | _, v :: rest =>
          Some (mkSession (Returned v) (err st) (bg st) rest (received st)
                  (handled st) (written st) (taken st ++ [v]) (pings st)
                  (unsubscribed st))
      end
  end.

(** A scheduler's choice that finds its activity blocked changes nothing. *)
Definition move (st : session) (a : action) : session :=
  match step a st with
  | Some st' => st'
  | None => st
  end.

Definition exec (sched : list action) (st : session) : session :=
  fold_left move sched st.

(** ** One session: [listen] (lines 77-190) *)

Record attempt : Type := {
  dialURL : string -> result redis.Conn;  (* redis.DialURL, by URL *)
  network : list dial_try;      (* sentinel mode: what the pool's dials meet *)
  subscribe : goerror;          (* the answer to SUBSCRIBE on an open connection *)
  schedule : list action;       (* the moves once the session is live *)
  draw : Z                      (* the generator state the next nextRetry sees *)
}.

Inductive obs : Type :=
| OListen                    (* Start calls s.listen() *)
| OSubscribe (r : goerror)   (* psc.Subscribe(s.channel) returned r *)
| OErrorf (e : error)        (* "Failed to subscribe to Redis channel" *)
| OCounter (n : Z)           (* s.reconnectAttempt is assigned n *)
| OHandle (data : bytes)     (* node.HandlePubsub(data) *)
| OWarn (e : error)          (* "Redis connection failed" *)
| ONextRetry (n : Z)         (* nextRetry(n) is called *)
| OSleep (d : Z).            (* time.Sleep(d) *)

(** What the caller of [listen] sees: a returned value, or a session still
    running when the observed schedule ends. *)
Inductive lresult : Type :=
| LReturn (r : goerror)
| LRunning.

(** Lines 79-142: the connection, in either mode.  The outer [None] is a
    pool still dialling; [Err] is the early [return err] of line 140. *)
Definition connect (a : attempt) (s : RedisSubscriber) : option (result redis.handle) :=
  if sentinelsEnabled s then
    match fst (redis.Get (pool s) [] (network a)) with
    | None => None
    | Some c => Some (Ok c)
    end
  else
    match dialURL a (url s) with
    | Ok c => Some (Ok (redis.open c))
    | Err e => Some (Err e)
    end.

Definition returned (st : session) : lresult :=
  match fg st with
  | Returned r => LReturn r
  | _ => LRunning
  end.

Definition listen (a : attempt) (s : RedisSubscriber)
    : lresult * RedisSubscriber * list obs :=
  match connect a s with
  | None => (LRunning, s, [])
  | Some (Err e) => (LReturn (Some e), s, [])
  | Some (Ok c) =>
      match redis.Subscribe c (subscribe a) with
      | Some e => (LReturn (Some e), s, [OSubscribe (Some e); OErrorf e])
      | None =>
          let st := exec (schedule a) live in
          (returned st, set_reconnectAttempt 0 s,
           OSubscribe None :: OCounter 0 :: map OHandle (handled st))
      end
  end.

(** ** The supervisor: [Start] (lines 49-75) *)

Inductive outcome : Type :=
| Stopped (e : goerror)  (* Start returned e *)
| Panicked               (* rand.Intn panicked *)
| InSession              (* the last session observed has not returned *)
| Looping.               (* the script ends between two sessions *)

(** The [for] loop of lines 57-74, one session of the script per turn. *)
Fixpoint loop (script : list attempt) (s : RedisSubscriber)
    : outcome * RedisSubscriber * list obs :=
  match script with
  | [] => (Looping, s, [])
  | a :: script' =>
      match listen a s with
      | (LRunning, s1, tr) => (InSession, s1, OListen :: tr)
      | (LReturn r, s1, tr) =>
          let warn := match r with Some e => [OWarn e] | None => [] end in
          let n := add (reconnectAttempt s1) 1 in
          let s2 := set_reconnectAttempt n s1 in
          if n >=? maxReconnectAttempts then
            (Stopped (errors_New "Redis reconnect attempts exceeded"), s2,
             OListen :: tr ++ warn ++ [OCounter n])
          else
            match nextRetry (draw a) n with
            | None =>
                (Panicked, s2, OListen :: tr ++ warn ++ [OCounter n; ONextRetry n])
            | Some delay =>
                let '(o, s3, tr') := loop script' s2 in
                (o, s3,
                 OListen :: tr ++ warn ++ [OCounter n; ONextRetry n; OSleep delay] ++ tr')
            end
      end
  end.

Section Start.

(** [url.Parse] of net/url, reduced to its error result. *)
Variable url_Parse : string -> goerror.

Definition Start (script : list attempt) (s : RedisSubscriber)
    : outcome * RedisSubscriber * list obs :=
  match url_Parse (url s) with
  | Some e => (Stopped (Some e), s, [])
  | None => loop script s
  end.

End Start.

(** ** Reading traces and sessions *)

Definition outcome_of (r : outcome * RedisSubscriber * list obs) : outcome := fst (fst r).
Definition state_of (r : outcome * RedisSubscriber * list obs) : RedisSubscriber := snd (fst r).
Definition trace_of (r : outcome * RedisSubscriber * list obs) : list obs := snd r.

Definition is_listen (o : obs) : bool :=
  match o with OListen => true | _ => false end.
Definition is_sleep (o : obs) : bool :=
  match o with OSleep _ => true | _ => false end.

(** Number of session attempts and of backoff sleeps in a trace. *)
Definition sessions (tr : list obs) : nat := List.length (filter is_listen tr).
Definition sleeps (tr : list obs) : nat := List.length (filter is_sleep tr).

(** The successive values assigned to [reconnectAttempt]. *)
Definition counter_values (tr : list obs) : list Z :=
  flat_map (fun o => match o with OCounter n => [n] | _ => [] end) tr.

(** The arguments of the calls of [nextRetry]. *)
Definition retry_arguments (tr : list obs) : list Z :=
  flat_map (fun o => match o with ONextRetry n => [n] | _ => [] end) tr.

(** The payloads of the message events among received values, in order. *)
Definition payloads (l : list redis.reply) : list bytes :=
  flat_map (fun v => match v with redis.Message _ data => [data] | _ => [] end) l.

(** The error events among received values, in order. *)
Definition errors_of (l : list redis.reply) : list error :=
  flat_map (fun v => match v with redis.Error e => [e] | _ => [] end) l.

(** A session that ends before a subscribe succeeds: the dial or the
    subscribe fails. *)
Definition fails_early (a : attempt) (s : RedisSubscriber) : bool :=
  match connect a s with
  | None => false
  | Some (Err _) => true
  | Some (Ok c) =>
      match redis.Subscribe c (subscribe a) with
      | Some _ => true
      | None => false
      end
  end.

(** The counter as the spec words it: reset to 0 by a successful subscribe,
    incremented by 1 after each failed session.  [counter_spec c tr] lists
    the values it takes along [tr], starting from [c]. *)
Fixpoint counter_spec (c : Z) (tr : list obs) : list Z :=
  match tr with
  | [] => []
  | OSubscribe None :: tr' => 0 :: counter_spec 0 tr'
  | OWarn _ :: tr' => (c + 1) :: counter_spec (c + 1) tr'
  | _ :: tr' => counter_spec c tr'
  end.

(** Failed sessions since the last successful subscribe, on top of [c]. *)
Fixpoint failures_since_subscribe (c : Z) (tr : list obs) : Z :=
  match tr with
  | [] => c
  | OSubscribe None :: tr' => failures_since_subscribe 0 tr'
  | OWarn _ :: tr' => failures_since_subscribe (c + 1) tr'
  | _ :: tr' => failures_since_subscribe c tr'
  end.

(** A [url.Parse] that knows one rule of net/url: a URL holding an ASCII
    control character is rejected. *)
Definition is_ctl (c : ascii) : bool :=
  (nat_of_ascii c <? 32)%nat || (nat_of_ascii c =? 127)%nat.

Fixpoint stringContainsCTLByte (s : string) : bool :=
  match s with
  | EmptyString => false
  | String c rest => is_ctl c || stringContainsCTLByte rest
  end.

Definition parse_rejecting_ctl (rawURL : string) : goerror :=
  if stringContainsCTLByte rawURL
  then errors_New "net/url: invalid control character in URL"
  else None.

(** Number of dials and of closed connections in a pool log. *)
Definition dials (l : list redis.pool_event) : nat :=
  List.length (filter (fun ev => match ev with redis.Dialled _ => true | _ => false end) l).
Definition closes (l : list redis.pool_event) : nat :=
  List.length (filter (fun ev => match ev with redis.Closed _ => true | _ => false end) l).

(** ** Vocabulary of the properties *)

(** The largest attempt count whose worst-case delay still fits a
    [time.Duration]. *)
Definition maxStep : Z := 42949.

(** The value the goroutine is about to send. *)
Definition pending (b : background) : list goerror :=
  match b with
  | Receiving => []
  | Sending v => [Some v]
  end.

Record inv (st : session) : Prop := {
  inv_handled : handled st = payloads (received st);
  inv_written : map Some (errors_of (received st)) = written st ++ pending (bg st);
  inv_channel : written st = taken st ++ done st;
  inv_cap : (List.length (done st) <= doneCap)%nat;
  inv_taken : taken st = match fg st with Returned r => [r] | _ => [] end;
  inv_unsub : unsubscribed st = match err st with Some _ => true | None => false end;
  inv_select : fg st = Selecting -> err st = None;
  inv_drain : fg st = Draining -> err st <> None
}.

Inductive listened (a : attempt) (s : RedisSubscriber)
    : lresult -> RedisSubscriber -> list obs -> Prop :=
| listened_dialling :
    fails_early a s = false ->
    listened a s LRunning s []
| listened_early (e : error) (tr : list obs) :
    fails_early a s = true ->
    tr = [] \/ tr = [OSubscribe (Some e); OErrorf e] ->
    listened a s (LReturn (Some e)) s tr
| listened_live (r : lresult) (h : list bytes) :
    fails_early a s = false ->
    r = LRunning \/ (exists e, r = LReturn (Some e)) ->
    listened a s r (set_reconnectAttempt 0 s)
      (OSubscribe None :: OCounter 0 :: map OHandle h).

Definition exceeded : goerror := errors_New "Redis reconnect attempts exceeded".

(** The counter can be incremented without wrapping. *)
Definition counter_ok (s : RedisSubscriber) : Prop := 0 <= reconnectAttempt s < maxInt.

Inductive turn (a : attempt) (script : list attempt) (s : RedisSubscriber)
    : outcome * RedisSubscriber * list obs -> Prop :=
| turn_running (s1 : RedisSubscriber) (tr : list obs) :
    listened a s LRunning s1 tr ->
    turn a script s (InSession, s1, OListen :: tr)
| turn_stop (e : error) (s1 : RedisSubscriber) (tr : list obs) :
    listened a s (LReturn (Some e)) s1 tr ->
    maxReconnectAttempts <= reconnectAttempt s1 + 1 ->
    turn a script s
      (Stopped exceeded, set_reconnectAttempt (reconnectAttempt s1 + 1) s1,
       OListen :: tr ++ [OWarn e; OCounter (reconnectAttempt s1 + 1)])
| turn_retry (e : error) (s1 : RedisSubscriber) (tr : list obs) (d : Z) :
    listened a s (LReturn (Some e)) s1 tr ->
    1 <= reconnectAttempt s1 + 1 < maxReconnectAttempts ->
    nextRetry (draw a) (reconnectAttempt s1 + 1) = Some d ->
    turn a script s
      (outcome_of (loop script (set_reconnectAttempt (reconnectAttempt s1 + 1) s1)),
       state_of (loop script (set_reconnectAttempt (reconnectAttempt s1 + 1) s1)),
       OListen :: tr ++ [OWarn e; OCounter (reconnectAttempt s1 + 1);
                         ONextRetry (reconnectAttempt s1 + 1); OSleep d] ++
       trace_of (loop script (set_reconnectAttempt (reconnectAttempt s1 + 1) s1))).

Definition retry_ok (n : Z) : Prop :=
  1 <= n < maxReconnectAttempts /\ 0 < mul n 4.

(** ** Sample inputs *)

Definition sample_subscriber : RedisSubscriber :=
  NewRedisSubscriber "redis://localhost:6379/5" false EmptyString "mymaster"
    EmptyString "__anycable__".

Definition sentinel_subscriber : RedisSubscriber :=
  NewRedisSubscriber "redis://localhost:6379/5" true
    "10.0.0.1:26379,10.0.0.2:26379" "mymaster" "secret" "__anycable__".

(** A session whose dial is refused. *)
Definition dial_refused : attempt :=
  {| dialURL := fun _ => Err "dial tcp 127.0.0.1:6379: connect: connection refused"%string;
     network := [];
     subscribe := None;
     schedule := [];
     draw := 0 |}.

(** A session that connects and whose SUBSCRIBE fails. *)
Definition subscribe_refused : attempt :=
  {| dialURL := fun u => Ok {| redis.addr := u; redis.role := "master" |};
     network := [];
     subscribe := Some "write tcp: broken pipe"%string;
     schedule := [];
     draw := 3 |}.

(** A session that connects, subscribes and then runs [sched]. *)
Definition dial_accepted (sched : list action) (d : Z) : attempt :=
  {| dialURL := fun u => Ok {| redis.addr := u; redis.role := "master" |};
     network := [];
     subscribe := None;
     schedule := sched;
     draw := d |}.

(** A pool dial that reaches a server answering ROLE with [r]. *)
Definition reaches (r : string) : dial_try :=
  {| MasterAddr := Ok "10.0.0.7:6379"%string;
     tcp := fun _ _ => Ok r |}.

(** The URL of the spec's scenario: "not a url " followed by a NUL byte. *)
Definition malformed_url : string :=
  String.append "not a url " (String (ascii_of_nat 0) EmptyString).

(** ** utils/version.go

    [version] and [sha] are package variables that the linker may set; a
    [build] is their contents when the program starts. *)

Module utils.

Record build : Type := { version : string; sha : string }.

(** [init()] *)
Definition init (b : build) : build :=
  if String.eqb (version b) EmptyString then
    let v := "1.0.0-dev"%string in
    if negb (String.eqb (sha b) EmptyString) then
      {| version := String.append (String.append v "-") (sha b); sha := sha b |}
    else
      {| version := v; sha := sha b |}
  else b.

(** [Version()] *)
Definition Version (b : build) : string := version b.

(** [SHA()] *)
Definition SHA (b : build) : string := sha b.

End utils.

(** ** Further readings of schedules and traces *)

(** The values a schedule has [psc.Receive()] return, in order. *)
Definition offered (sched : list action) : list redis.reply :=
  flat_map (fun a => match a with Receive v => [v] | _ => [] end) sched.

(** The ping results still possible after [e]: none once a ping failed. *)
Definition failed_ping (e : goerror) : list goerror :=
  match e with
  | Some _ => [e]
  | None => []
  end.

(** The durations slept, in order, and their sum. *)
Definition sleep_values (tr : list obs) : list Z :=
  flat_map (fun o => match o with OSleep d => [d] | _ => [] end) tr.

Definition total_sleep (tr : list obs) : Z :=
  fold_right Z.add 0 (sleep_values tr).

(** Shortest and longest delay of [nextRetry] at attempt [n], in seconds. *)
Definition minDelay (n : Z) : Z := n * n.
Definition maxDelay (n : Z) : Z := n * n + (4 * n - 1) * (n + 1).

(** The sum of [f n] over the attempts [n] still ahead of a counter [c]:
    [c + 1] to [maxReconnectAttempts - 1]. *)
Definition budget (f : Z -> Z) (c : Z) : Z :=
  fold_right Z.add 0 (map f (filter (fun n => c <? n) [1; 2; 3; 4])).

(** What a move makes the receive loop receive, seen from the schedule: the
    value of a [Receive] that finds the goroutine at [psc.Receive()]; and
    what that move hands to [node.HandlePubsub]. *)
Definition accepted (a : action) (b : background) : list redis.reply :=
  match a, b with
  | Receive v, Receiving => [v]
  | _, _ => []
  end.

Definition forwarded (a : action) (b : background) : list bytes :=
  match a, b with
  | Receive (redis.Message _ data), Receiving => [data]
  | _, _ => []
  end.

(** * Properties *)

(** ** Arithmetic of the backoff *)

Lemma wrap_small (z : Z) : minInt <= z <= maxInt -> wrap z = z.
Proof.
  unfold wrap, minInt, maxInt, intBits. intros H.
  rewrite Z.mod_small; lia.
Qed.

Lemma nextRetry_in_range (draw n : Z) :
  1 <= n <= maxStep ->
  exists r, 0 <= r < 4 * n /\
    nextRetry draw n = Some ((n * n + r * (n + 1)) * time.Second).
Proof.
  unfold maxStep. intros Hn.
  unfold nextRetry, mul, add.
  assert (Hint : minInt = -9223372036854775808 /\ maxInt = 9223372036854775807)
    by (split; reflexivity).
  destruct Hint as [Hmin Hmax].
  rewrite (wrap_small (n * 4)) by lia.
  unfold rand.Intn. destruct (n * 4 <=? 0) eqn:E; [lia|].
  set (r := draw mod (n * 4)).
  assert (Hr : 0 <= r < n * 4) by (apply Z.mod_pos_bound; lia).
  assert (Hnn : 0 <= n * n <= 42949 * 42949) by (split; [nia | apply Z.mul_le_mono_nonneg; lia]).
  assert (Hrn : 0 <= r * (n + 1) <= 171795 * 42950)
    by (split; [nia | apply Z.mul_le_mono_nonneg; lia]).
  rewrite (wrap_small (n * n)) by lia.
  rewrite (wrap_small (n + 1)) by lia.
  rewrite (wrap_small (r * (n + 1))) by lia.
  rewrite (wrap_small (n * n + r * (n + 1))) by lia.
  unfold time.Second.
  rewrite wrap_small by lia.
  exists r. split; [lia | reflexivity].
Qed.

(** C3, as stated, fails: at attempt count 42950 the draw 171799 gives
    9223641349 seconds, which no longer fits a [time.Duration]; the
    multiplication by [time.Second] wraps around to a negative delay. *)
Lemma nextRetry_bounds_fail_at_42950 :
  ~ (forall draw n : Z, 1 <= n ->
       exists d, nextRetry draw n = Some d /\
         n * n * time.Second <= d < (n * n + 4 * n * (n + 1)) * time.Second).
Proof.
  intros H. destruct (H 171799 42950 ltac:(lia)) as [d [Hd Hb]].
  vm_compute in Hd. injection Hd as <-.
  vm_compute in Hb. destruct Hb as [Hb _]. apply Hb. reflexivity.
Qed.

(** C3, amended: for every attempt count [1 <= n <= 42949] (the supervisor
    passes 1 to 4) and every draw, [nextRetry] returns
    [n^2 + r * (n + 1)] seconds for an [r] of [[0, 4n)], which is at least
    [n^2] seconds and strictly less than [n^2 + 4n(n+1)] seconds; it is a
    function of its argument and of the draw alone. *)
Theorem nextRetry_bounds (draw n : Z) :
  1 <= n <= maxStep ->
  exists r d, 0 <= r < 4 * n /\
    nextRetry draw n = Some d /\
    d = (n * n + r * (n + 1)) * time.Second /\
    n * n * time.Second <= d < (n * n + 4 * n * (n + 1)) * time.Second.
Proof.
  intros Hn. destruct (nextRetry_in_range draw n Hn) as [r [Hr Heq]].
  exists r, ((n * n + r * (n + 1)) * time.Second).
  repeat split; try assumption; try lia; unfold time.Second; unfold maxStep in Hn; nia.
Qed.

Lemma nextRetry_bounds_witness :
  1 <= 3 <= maxStep /\
  exists r d, 0 <= r < 4 * 3 /\
    nextRetry 7 3 = Some d /\
    d = (3 * 3 + r * (3 + 1)) * time.Second /\
    3 * 3 * time.Second <= d < (3 * 3 + 4 * 3 * (3 + 1)) * time.Second.
Proof.
  split; [unfold maxStep; lia | apply (nextRetry_bounds 7 3); unfold maxStep; lia].
Defined.

(** ** Invariants of a live session *)

Lemma payloads_snoc (l : list redis.reply) (v : redis.reply) :
  payloads (l ++ [v]) = payloads l ++ payloads [v].
Proof. unfold payloads. apply flat_map_app. Qed.

Lemma errors_of_snoc (l : list redis.reply) (v : redis.reply) :
  errors_of (l ++ [v]) = errors_of l ++ errors_of [v].
Proof. unfold errors_of. apply flat_map_app. Qed.

Lemma inv_live : inv live.
Proof. constructor; simpl; try reflexivity; try lia; congruence. Qed.

Lemma inv_dispatch (v : redis.reply) (st : session) :
  bg st = Receiving -> inv st -> inv (dispatch v st).
Proof.
  intros Hbg [H1 H2 H3 H4 H5 H6 H7 H8]. rewrite Hbg in H2. simpl in H2.
  rewrite app_nil_r in H2.
  destruct v; constructor; simpl; try assumption;
    rewrite ?payloads_snoc, ?errors_of_snoc, ?map_app; simpl;
    rewrite ?app_nil_r; first [congruence | now rewrite H2].
Qed.

Lemma inv_tick (r : goerror) (st : session) :
  fg st = Selecting -> inv st -> inv (tick r st).
Proof.
  intros Hfg [H1 H2 H3 H4 H5 H6 H7 H8]. rewrite Hfg in H5.
  destruct r; constructor; simpl; try assumption; try reflexivity;
    try congruence.
  rewrite H6, (H7 Hfg). reflexivity.
Qed.

Lemma inv_step (a : action) (st st' : session) :
  step a st = Some st' -> inv st -> inv st'.
Proof.
  destruct a as [v| |r|]; simpl.
  - destruct (bg st) eqn:Hbg; [|discriminate].
    intros H; injection H as <-. now apply inv_dispatch.
  - destruct (bg st) eqn:Hbg; [discriminate|].
    destruct (List.length (done st) <? doneCap)%nat eqn:Hlen; [|discriminate].
    intros H [H1 H2 H3 H4 H5 H6 H7 H8]; injection H as <-.
    apply Nat.ltb_lt in Hlen. rewrite Hbg in H2. simpl in H2.
    constructor; simpl; try assumption.
    + rewrite app_nil_r. exact H2.
    + rewrite H3. now rewrite app_assoc.
    + rewrite length_app. simpl. unfold doneCap in *. lia.
  - destruct (fg st) eqn:Hfg; try discriminate.
    intros H; injection H as <-. now apply inv_tick.
  - intros H [H1 H2 H3 H4 H5 H6 H7 H8].
    destruct (fg st) eqn:Hfg; destruct (done st) as [|v rest] eqn:Hd;
      try discriminate; injection H as <-;
      constructor; simpl; try assumption; try congruence;
      try (rewrite H3, H5; simpl; reflexivity);
      try (rewrite H5; reflexivity);
      try (simpl in H4; lia).
Qed.

Lemma inv_move (a : action) (st : session) : inv st -> inv (move st a).
Proof.
  intros H. unfold move. destruct (step a st) eqn:E; [|assumption].
  eapply inv_step; eassumption.
Qed.

Lemma inv_exec (sched : list action) (st : session) : inv st -> inv (exec sched st).
Proof.
  revert st. induction sched as [|a sched IH]; intros st H; simpl; [assumption|].
  apply IH. now apply inv_move.
Qed.

Lemma exec_app (s1 s2 : list action) (st : session) :
  exec (s1 ++ s2) st = exec s2 (exec s1 st).
Proof. unfold exec. apply fold_left_app. Qed.

(** A returned foreground makes no further move: nothing is pinged, read or
    returned after [listen] has returned. *)
Lemma move_after_return (a : action) (st : session) (r : goerror) :
  fg st = Returned r ->
  fg (move st a) = Returned r /\ pings (move st a) = pings st /\
  taken (move st a) = taken st /\ err (move st a) = err st /\
  unsubscribed (move st a) = unsubscribed st.
Proof.
  intros Hfg. unfold move. destruct a as [v| |x|]; simpl.
  - destruct (bg st); [destruct v|]; simpl; auto.
  - destruct (bg st); simpl; auto.
    destruct (List.length (done st) <? doneCap)%nat; simpl; auto.
  - rewrite Hfg. auto.
  - rewrite Hfg. auto.
Qed.

Lemma exec_after_return (sched : list action) (st : session) (r : goerror) :
  fg st = Returned r ->
  fg (exec sched st) = Returned r /\ pings (exec sched st) = pings st /\
  taken (exec sched st) = taken st /\ err (exec sched st) = err st /\
  unsubscribed (exec sched st) = unsubscribed st.
Proof.
  revert st. induction sched as [|a sched IH]; intros st Hfg; simpl; [auto|].
  destruct (move_after_return a st r Hfg) as (H1 & H2 & H3 & H4 & H5).
  destruct (IH _ H1) as (I1 & I2 & I3 & I4 & I5).
  repeat split; congruence.
Qed.

(** What a session returns is the first error event its goroutine received;
    it has been read from [done]. *)
Lemma returned_first_error (st : session) (r : goerror) :
  inv st -> fg st = Returned r ->
  taken st = [r] /\ exists e rest, r = Some e /\ errors_of (received st) = e :: rest.
Proof.
  intros [H1 H2 H3 H4 H5 H6 H7 H8] Hfg. rewrite Hfg in H5. split; [assumption|].
  rewrite H3, H5 in H2. simpl in H2.
  destruct (errors_of (received st)) as [|e rest]; [discriminate|].
  simpl in H2. injection H2 as <- _. now exists e, rest.
Qed.

(** ** What the goroutine receives of a schedule *)

Lemma exec_snoc (sched : list action) (a : action) (st : session) :
  exec (sched ++ [a]) st = move (exec sched st) a.
Proof. now rewrite exec_app. Qed.

Lemma offered_snoc (sched : list action) (a : action) :
  offered (sched ++ [a]) = offered sched ++ offered [a].
Proof. unfold offered. apply flat_map_app. Qed.

Lemma errors_of_app (l1 l2 : list redis.reply) :
  errors_of (l1 ++ l2) = errors_of l1 ++ errors_of l2.
Proof. unfold errors_of. apply flat_map_app. Qed.

Lemma received_dispatch (v : redis.reply) (st : session) :
  received (dispatch v st) = received st ++ [v].
Proof. now destruct v. Qed.

(** Until the first error event the goroutine takes every value the
    connection offers; that first error is also the first it records. *)
Lemma received_offered (sched : list action) :
  (errors_of (offered sched) = [] ->
   received (exec sched live) = offered sched /\ bg (exec sched live) = Receiving) /\
  (forall e rest, errors_of (offered sched) = e :: rest ->
   exists rest', errors_of (received (exec sched live)) = e :: rest').
Proof.
  induction sched as [|a sched [IH1 IH2]] using rev_ind.
  - split; [auto | discriminate].
  - rewrite exec_snoc, offered_snoc, errors_of_app.
    set (st := exec sched live) in *.
    destruct a as [v| |r|].
    + change (offered [Receive v]) with [v].
      destruct (errors_of (offered sched)) as [|e0 l] eqn:E.
      * destruct (IH1 eq_refl) as [Hr Hb].
        unfold move, step. rewrite Hb.
        split.
        -- intros Hv. rewrite received_dispatch, Hr. split; [reflexivity|].
           destruct v; simpl in *; try reflexivity. discriminate.
        -- intros e rest Hv. rewrite received_dispatch, errors_of_app, Hr, E.
           simpl in *. now exists rest.
      * split; [discriminate|].
        intros e rest Hv. simpl in Hv. injection Hv as <- _.
        destruct (IH2 e0 l eq_refl) as [rest' Hrest].
        unfold move, step. destruct (bg st); [|now exists rest'].
        rewrite received_dispatch, errors_of_app, Hrest. simpl. eauto.
    + change (offered [Send]) with (@nil redis.reply). simpl. rewrite !app_nil_r.
      split.
      * intros E. destruct (IH1 E) as [Hr Hb]. unfold move, step. now rewrite Hb.
      * intros e rest E. destruct (IH2 e rest E) as [rest' Hrest].
        exists rest'. unfold move, step.
        destruct (bg st); [assumption|].
        now destruct (List.length (done st) <? doneCap)%nat.
    + change (offered [Tick r]) with (@nil redis.reply). simpl. rewrite !app_nil_r.
      assert (Hsame : received (move st (Tick r)) = received st /\
                      bg (move st (Tick r)) = bg st).
      { unfold move, step. destruct (fg st); [destruct r|..]; auto. }
      destruct Hsame as [-> ->]. split; assumption.
    + change (offered [Done]) with (@nil redis.reply). simpl. rewrite !app_nil_r.
      assert (Hsame : received (move st Done) = received st /\
                      bg (move st Done) = bg st).
      { unfold move, step. destruct (fg st), (done st); auto. }
      destruct Hsame as [-> ->]. split; assumption.
Qed.

(** ** The live session: claims *)

(** C7: every message event the receive loop receives is handed to
    [node.HandlePubsub] exactly once, in receive order, with its payload
    unchanged, and nothing else is.  Move by move: the loop receives a value
    exactly when a [psc.Receive()] returns while the goroutine stands there,
    and that move calls the handler once with the payload when the value is
    a message, and not at all when it is a subscription confirmation, a
    pong or an error, nor on any other move.  Over a whole schedule: the
    handler's arguments are the payloads of the received messages, in
    order; as long as the connection has yielded no error these are all the
    messages the schedule offers, and they are what [listen] records as
    handler calls. *)
Theorem messages_forwarded_once_in_order :
  (forall sched a,
     received (exec (sched ++ [a]) live)
       = received (exec sched live) ++ accepted a (bg (exec sched live)) /\
     handled (exec (sched ++ [a]) live)
       = handled (exec sched live) ++ forwarded a (bg (exec sched live)) /\
     forwarded a (bg (exec sched live))
       = payloads (accepted a (bg (exec sched live)))) /\
  (forall sched, handled (exec sched live) = payloads (received (exec sched live))) /\
  (forall sched,
     errors_of (offered sched) = [] ->
     handled (exec sched live) = payloads (offered sched)) /\
  (forall a s,
     fails_early a s = false ->
     connect a s <> None ->
     errors_of (offered (schedule a)) = [] ->
     snd (listen a s)
       = OSubscribe None :: OCounter 0 :: map OHandle (payloads (offered (schedule a)))).
Proof.
  assert (Hall : forall sched,
            errors_of (offered sched) = [] ->
            handled (exec sched live) = payloads (offered sched)).
  { intros sched E.
    rewrite (inv_handled _ (inv_exec sched live inv_live)).
    now destruct (proj1 (received_offered sched) E) as [-> _]. }
  split; [|split; [|split]].
  - intros sched a. rewrite exec_snoc.
    set (st := exec sched live). unfold move, step.
    destruct a as [v| |r|]; simpl.
    + destruct (bg st); destruct v; simpl; rewrite ?app_nil_r;
        repeat split; reflexivity.
    + destruct (bg st); [|destruct (List.length (done st) <? doneCap)%nat];
        simpl; rewrite ?app_nil_r; repeat split; reflexivity.
    + destruct (bg st), (fg st); try destruct r; simpl; rewrite ?app_nil_r;
        repeat split; reflexivity.
    + destruct (bg st), (fg st), (done st); simpl; rewrite ?app_nil_r;
        repeat split; reflexivity.
  - intros sched. apply inv_handled, inv_exec, inv_live.
  - exact Hall.
  - intros a s Hlive Hconn E. unfold fails_early in Hlive. unfold listen.
    destruct (connect a s) as [[c|e]|]; try congruence.
    destruct (redis.Subscribe c (subscribe a)); [discriminate|].
    simpl. now rewrite (Hall _ E).
Qed.

Lemma messages_forwarded_once_in_order_witness :
  let m1 := redis.Message "__anycable__"%string [x7b; x7d] in
  let m2 := redis.Message "__anycable__"%string [x5b; x31; x5d] in
  let sched := [Receive (redis.Subscription "subscribe" "__anycable__" 1);
                Receive m1; Tick None; Receive (redis.Pong EmptyString)] in
  let a := dial_accepted (sched ++ [Receive m2]) 0 in
  handled (exec sched live) = [[x7b; x7d]] /\
  handled (exec (sched ++ [Receive m2]) live) = [[x7b; x7d]; [x5b; x31; x5d]] /\
  received (exec (sched ++ [Receive m2]) live)
    = received (exec sched live) ++ [m2] /\
  errors_of (offered (sched ++ [Receive m2])) = [] /\
  handled (exec (sched ++ [Receive m2]) live) = payloads (offered (sched ++ [Receive m2])) /\
  fails_early a sample_subscriber = false /\
  connect a sample_subscriber <> None /\
  snd (listen a sample_subscriber)
    = [OSubscribe None; OCounter 0; OHandle [x7b; x7d]; OHandle [x5b; x31; x5d]].
Proof.
  intros m1 m2 sched a.
  destruct messages_forwarded_once_in_order as (Hstep & _ & Hall & Hlisten).
  destruct (Hstep sched (Receive m2)) as (Hr & Hh & _).
  assert (E : errors_of (offered (sched ++ [Receive m2])) = []) by reflexivity.
  assert (L : fails_early a sample_subscriber = false) by reflexivity.
  assert (C : connect a sample_subscriber <> None) by (vm_compute; discriminate).
  split; [reflexivity|].
  split; [exact Hh|].
  split; [exact Hr|].
  split; [exact E|].
  split; [exact (Hall _ E)|].
  split; [exact L|]. split; [exact C|].
  exact (Hlisten a sample_subscriber L C E).
Defined.

(** The foreground reads [done] at most once per session. *)
Lemma done_read_at_most_once (sched : list action) :
  (List.length (taken (exec sched live)) <= 1)%nat.
Proof.
  pose proof (inv_taken _ (inv_exec sched live inv_live)) as H.
  rewrite H. destruct (fg (exec sched live)); simpl; lia.
Qed.

(** C4, on the code: an error event does not stop the receive loop.  Once
    the connection has failed every [psc.Receive()] fails; after the first
    error has been sent and read, the goroutine receives again, sends a
    second value on [done] and goes on receiving.  A third error leaves it
    blocked on the send for good. *)
Theorem receive_loop_survives_error :
  let eof := redis.Error "EOF"%string in
  let st := exec [Receive eof; Send; Done; Receive eof; Send] live in
  fg st = Returned (Some "EOF"%string) /\
  received st = [eof; eof] /\
  written st = [Some "EOF"%string; Some "EOF"%string] /\
  bg st = Receiving /\
  bg (exec [Receive eof; Send] st) = Sending "EOF"%string.
Proof. repeat split. Qed.

(** C5: a session never returns [nil], and returns once.  Whatever [listen]
    returns is a non-nil error; once the foreground has returned [r], no
    later move changes that, reads [done] again or sends another ping; and
    whenever an error waits in [done] before the return, the foreground's
    next read returns it. *)
Theorem session_delivers_one_error (a : attempt) (s : RedisSubscriber) :
  (forall r s' tr, listen a s = (LReturn r, s', tr) -> exists e, r = Some e) /\
  (forall sched more r,
     fg (exec sched live) = Returned r ->
     (exists e, r = Some e) /\
     fg (exec (sched ++ more) live) = Returned r /\
     taken (exec (sched ++ more) live) = [r] /\
     pings (exec (sched ++ more) live) = pings (exec sched live)) /\
  (forall sched v rest,
     done (exec sched live) = v :: rest ->
     returned (exec sched live) = LRunning ->
     fg (exec (sched ++ [Done]) live) = Returned v /\ exists e, v = Some e).
Proof.
  split; [|split].
  - intros r s' tr. unfold listen.
    destruct (connect a s) as [[c|e]|]; try discriminate.
    + destruct (redis.Subscribe c (subscribe a)) as [e|].
      * intros H; injection H as <- _ _. now exists e.
      * intros H; injection H as H _ _. unfold returned in H.
        destruct (fg (exec (schedule a) live)) eqn:Hfg; try discriminate.
        injection H as ->.
        destruct (returned_first_error _ r (inv_exec _ _ inv_live) Hfg)
          as (_ & e & _ & -> & _).
        now exists e.
    + intros H; injection H as <- _ _. now exists e.
  - intros sched more r Hfg.
    pose proof (inv_exec sched live inv_live) as Hinv.
    destruct (returned_first_error _ r Hinv Hfg) as (Ht & e & _ & -> & _).
    rewrite exec_app.
    destruct (exec_after_return more _ _ Hfg) as (H1 & H2 & H3 & _).
    split; [now exists e|]. repeat split; congruence.
  - intros sched v rest Hd Hrun. rewrite exec_app. simpl.
    pose proof (inv_exec sched live inv_live) as Hinv.
    unfold move, step. unfold returned in Hrun.
    destruct (fg (exec sched live)) eqn:Hfg; try discriminate; rewrite Hd; simpl;
      (split; [reflexivity|]);
      pose proof (inv_written _ Hinv) as Hw;
      rewrite (inv_channel _ Hinv), (inv_taken _ Hinv), Hfg, Hd in Hw; simpl in Hw;
      (destruct (errors_of (received (exec sched live))) as [|e l];
       [discriminate | simpl in Hw; injection Hw as <- _; now exists e]).
Qed.

Lemma session_delivers_one_error_witness :
  let a := {| dialURL := fun u => Ok {| redis.addr := u; redis.role := "master" |};
              network := []; subscribe := None;
              schedule := [Receive (redis.Error "EOF"%string); Send; Done];
              draw := 0 |} in
  let s := NewRedisSubscriber "redis://localhost:6379/5" false EmptyString EmptyString EmptyString "__anycable__" in
  listen a s = (LReturn (Some "EOF"%string), s, [OSubscribe None; OCounter 0]) /\
  (exists e, Some "EOF"%string = Some e) /\
  let sched := [Tick (Some "broken pipe"%string); Receive (redis.Error "EOF"%string); Send; Done] in
  fg (exec sched live) = Returned (Some "EOF"%string) /\
  fg (exec (sched ++ [Tick None; Done]) live) = Returned (Some "EOF"%string) /\
  done (exec [Receive (redis.Error "EOF"%string); Send] live) = [Some "EOF"%string] /\
  fg (exec ([Receive (redis.Error "EOF"%string); Send] ++ [Done]) live) = Returned (Some "EOF"%string).
Proof.
  intros a s.
  destruct (session_delivers_one_error a s) as (H1 & H2 & H3).
  assert (L : listen a s = (LReturn (Some "EOF"%string), s, [OSubscribe None; OCounter 0]))
    by reflexivity.
  split; [exact L|]. split; [exact (H1 _ _ _ L)|].
  intros sched.
  assert (F : fg (exec sched live) = Returned (Some "EOF"%string)) by reflexivity.
  split; [exact F|].
  split; [exact (proj1 (proj2 (H2 sched [Tick None; Done] _ F)))|].
  assert (D : done (exec [Receive (redis.Error "EOF"%string); Send] live) = [Some "EOF"%string])
    by reflexivity.
  split; [exact D|].
  exact (proj1 (H3 _ _ _ D eq_refl)).
Defined.

(** C10: when a session ends after a failed ping, [listen] has called
    [psc.Unsubscribe()] and returns the value it read from [done], which is
    the first error event of the receive loop; the ping's own error does not
    appear in the result. *)
Theorem ping_failure_returns_receive_error
    (sched : list action) (pingErr : error) (r : goerror) :
  err (exec sched live) = Some pingErr ->
  fg (exec sched live) = Returned r ->
  unsubscribed (exec sched live) = true /\
  taken (exec sched live) = [r] /\
  exists e rest, r = Some e /\ errors_of (received (exec sched live)) = e :: rest.
Proof.
  intros Herr Hfg.
  pose proof (inv_exec sched live inv_live) as Hinv.
  split.
  - rewrite (inv_unsub _ Hinv), Herr. reflexivity.
  - exact (returned_first_error _ r Hinv Hfg).
Qed.

Lemma ping_failure_returns_receive_error_witness :
  let sched := [Receive (redis.Message "__anycable__"%string [x7b; x7d]);
                Tick None;
                Tick (Some "write tcp: broken pipe"%string);
                Receive (redis.Error "read tcp: i/o timeout"%string);
                Send; Done] in
  err (exec sched live) = Some "write tcp: broken pipe"%string /\
  fg (exec sched live) = Returned (Some "read tcp: i/o timeout"%string) /\
  unsubscribed (exec sched live) = true /\
  taken (exec sched live) = [Some "read tcp: i/o timeout"%string] /\
  exists e rest, Some "read tcp: i/o timeout"%string = Some e /\
    errors_of (received (exec sched live)) = e :: rest.
Proof.
  intros sched.
  split; [reflexivity|]. split; [reflexivity|].
  apply (ping_failure_returns_receive_error sched "write tcp: broken pipe"%string); reflexivity.
Defined.

(** ** What one call of [listen] can give *)

Lemma listen_listened (a : attempt) (s : RedisSubscriber) :
  listened a s (fst (fst (listen a s))) (snd (fst (listen a s))) (snd (listen a s)).
Proof.
  unfold listen.
  destruct (connect a s) as [[c|e]|] eqn:Hc; simpl.
  - destruct (redis.Subscribe c (subscribe a)) as [e|] eqn:Hs; simpl.
    + apply listened_early; [|now right].
      unfold fails_early. now rewrite Hc, Hs.
    + apply listened_live.
      * unfold fails_early. now rewrite Hc, Hs.
      * unfold returned.
        destruct (fg (exec (schedule a) live)) eqn:Hfg; auto.
        right.
        destruct (returned_first_error _ r (inv_exec _ _ inv_live) Hfg)
          as (_ & e & _ & -> & _).
        now exists e.
  - apply listened_early; [|now left].
    unfold fails_early. now rewrite Hc.
  - apply listened_dialling. unfold fails_early. now rewrite Hc.
Qed.

Lemma filter_handles (f : obs -> bool) (h : list bytes) :
  (forall d, f (OHandle d) = false) -> filter f (map OHandle h) = [].
Proof.
  intros Hf. induction h as [|d h IH]; simpl; [reflexivity|].
  now rewrite Hf.
Qed.

Lemma counter_values_handles (h : list bytes) : counter_values (map OHandle h) = [].
Proof. induction h; simpl; auto. Qed.

Lemma retry_arguments_handles (h : list bytes) : retry_arguments (map OHandle h) = [].
Proof. induction h; simpl; auto. Qed.

Lemma counter_spec_handles (c : Z) (h : list bytes) (tr : list obs) :
  counter_spec c (map OHandle h ++ tr) = counter_spec c tr.
Proof. induction h; simpl; auto. Qed.

Lemma failures_handles (c : Z) (h : list bytes) (tr : list obs) :
  failures_since_subscribe c (map OHandle h ++ tr) = failures_since_subscribe c tr.
Proof. induction h; simpl; auto. Qed.

(** The trace of one [listen] holds no session start, sleep or backoff
    call. *)
Lemma listened_quiet (a : attempt) (s s1 : RedisSubscriber) (r : lresult) (tr : list obs) :
  listened a s r s1 tr ->
  sessions tr = 0%nat /\ sleeps tr = 0%nat /\ retry_arguments tr = [].
Proof.
  unfold sessions, sleeps.
  intros [H|e tr' H [->| ->]|r' h H Hr]; simpl; repeat split; try reflexivity;
    rewrite ?filter_handles, ?retry_arguments_handles; auto.
Qed.

Lemma sessions_app (t1 t2 : list obs) : sessions (t1 ++ t2) = (sessions t1 + sessions t2)%nat.
Proof. unfold sessions. now rewrite filter_app, length_app. Qed.

Lemma sleeps_app (t1 t2 : list obs) : sleeps (t1 ++ t2) = (sleeps t1 + sleeps t2)%nat.
Proof. unfold sleeps. now rewrite filter_app, length_app. Qed.

Lemma retry_arguments_app (t1 t2 : list obs) :
  retry_arguments (t1 ++ t2) = retry_arguments t1 ++ retry_arguments t2.
Proof. unfold retry_arguments. apply flat_map_app. Qed.

Lemma counter_values_app (t1 t2 : list obs) :
  counter_values (t1 ++ t2) = counter_values t1 ++ counter_values t2.
Proof. unfold counter_values. apply flat_map_app. Qed.

(** ** One turn of the supervisor's loop *)

Lemma listened_counter_ok (a : attempt) (s s1 : RedisSubscriber) (r : lresult) (tr : list obs) :
  listened a s r s1 tr -> counter_ok s -> counter_ok s1.
Proof.
  intros [H|e tr' H _|r' h H Hr] Hs; try assumption.
  unfold counter_ok, maxInt, intBits. simpl. lia.
Qed.

Lemma loop_turn (a : attempt) (script : list attempt) (s : RedisSubscriber) :
  counter_ok s -> turn a script s (loop (a :: script) s).
Proof.
  intros Hs. simpl.
  pose proof (listen_listened a s) as HL.
  destruct (listen a s) as [[r s1] tr]. simpl in HL.
  pose proof (listened_counter_ok _ _ _ _ _ HL Hs) as Hs1.
  destruct r as [[e|]|].
  - assert (Hadd : add (reconnectAttempt s1) 1 = reconnectAttempt s1 + 1).
    { unfold add. apply wrap_small. unfold counter_ok in Hs1.
      unfold minInt, maxInt, intBits in *. lia. }
    rewrite Hadd. unfold counter_ok in Hs1.
    destruct (reconnectAttempt s1 + 1 >=? maxReconnectAttempts) eqn:Hge.
    + apply Z.geb_le in Hge. now apply turn_stop.
    + assert (Hlt : 1 <= reconnectAttempt s1 + 1 < maxReconnectAttempts).
      { rewrite Z.geb_leb in Hge. apply Z.leb_gt in Hge. lia. }
      destruct (nextRetry_in_range (draw a) (reconnectAttempt s1 + 1)) as [x [_ Hd]].
      { unfold maxStep, maxReconnectAttempts in *. lia. }
      rewrite Hd.
      destruct (loop script (set_reconnectAttempt (reconnectAttempt s1 + 1) s1))
        as [[o s3] tr'] eqn:Hloop.
      pose proof (turn_retry a script s e s1 tr _ HL Hlt Hd) as T.
      rewrite Hloop in T. exact T.
  - inversion HL as [ | |r' h H Hr]; subst. destruct Hr as [Hr|[e Hr]]; discriminate.
  - now apply turn_running.
Qed.

(** Case analysis on one turn of the loop. *)
Ltac turn_cases a script s Hs :=
  let T := fresh "T" in
  let res := fresh "res" in
  pose proof (loop_turn a script s Hs) as T;
  revert T; generalize (loop (a :: script) s); intros res T;
  destruct T as [s1 tr HL | e s1 tr HL Hmax | e s1 tr d HL Hn Hd].

Lemma counter_ok_retry (n : Z) (s : RedisSubscriber) :
  1 <= n < maxReconnectAttempts -> counter_ok (set_reconnectAttempt n s).
Proof.
  unfold counter_ok, maxReconnectAttempts, maxInt, intBits. simpl. lia.
Qed.

(** ** The backoff is called with 1 to 4 *)

Lemma retry_ok_intro (n : Z) : 1 <= n < maxReconnectAttempts -> retry_ok n.
Proof.
  intros H. split; [assumption|]. unfold mul, maxReconnectAttempts in *.
  rewrite wrap_small; unfold minInt, maxInt, intBits; lia.
Qed.

Lemma loop_retries (script : list attempt) :
  forall s, counter_ok s ->
    outcome_of (loop script s) <> Panicked /\
    Forall retry_ok (retry_arguments (trace_of (loop script s))).
Proof.
  induction script as [|a script IH]; intros s Hs.
  - simpl. split; [discriminate | constructor].
  - turn_cases a script s Hs; unfold outcome_of, trace_of; simpl;
      destruct (listened_quiet _ _ _ _ _ HL) as (_ & _ & Hq).
    + rewrite Hq. split; [discriminate | constructor].
    + rewrite retry_arguments_app, Hq. simpl. split; [discriminate | constructor].
    + destruct (IH _ (counter_ok_retry _ s1 Hn)) as [I1 I2].
      split; [exact I1|].
      rewrite retry_arguments_app, Hq. simpl.
      constructor; [now apply retry_ok_intro | exact I2].
Qed.

(** C9: in every run of [Start] on a subscriber whose counter is not
    negative (a new subscriber has 0), [rand.Intn] never panics, and every
    call of [nextRetry] gets an attempt count of 1 to 4, so that the bound
    [step*4] passed to [rand.Intn] is positive. *)
Theorem nextRetry_never_called_with_zero
    (url_Parse : string -> goerror) (script : list attempt) (s : RedisSubscriber) :
  0 <= reconnectAttempt s < maxInt ->
  outcome_of (Start url_Parse script s) <> Panicked /\
  Forall (fun n => 1 <= n < maxReconnectAttempts /\ 0 < mul n 4)
    (retry_arguments (trace_of (Start url_Parse script s))).
Proof.
  intros Hs. unfold Start. destruct (url_Parse (url s)).
  - split; [discriminate | constructor].
  - exact (loop_retries script s Hs).
Qed.

Lemma nextRetry_never_called_with_zero_witness :
  let script := [dial_refused; dial_accepted [Receive (redis.Error "EOF"%string); Send; Done] 9;
                 subscribe_refused; dial_refused] in
  0 <= reconnectAttempt sample_subscriber < maxInt /\
  outcome_of (Start parse_rejecting_ctl script sample_subscriber) <> Panicked /\
  Forall (fun n => 1 <= n < maxReconnectAttempts /\ 0 < mul n 4)
    (retry_arguments (trace_of (Start parse_rejecting_ctl script sample_subscriber))) /\
  retry_arguments (trace_of (Start parse_rejecting_ctl script sample_subscriber)) = [1; 1; 2; 3].
Proof.
  intros script.
  assert (H : 0 <= reconnectAttempt sample_subscriber < maxInt)
    by (vm_compute; split; congruence).
  split; [exact H|].
  split; [exact (proj1 (nextRetry_never_called_with_zero parse_rejecting_ctl script _ H))|].
  split; [exact (proj2 (nextRetry_never_called_with_zero parse_rejecting_ctl script _ H))|].
  reflexivity.
Defined.

(** ** The counter *)

Lemma counter_spec_handles_nil (c : Z) (h : list bytes) :
  counter_spec c (map OHandle h) = [].
Proof. induction h; simpl; auto. Qed.

Lemma failures_handles_nil (c : Z) (h : list bytes) :
  failures_since_subscribe c (map OHandle h) = c.
Proof. induction h; simpl; auto. Qed.

Lemma loop_counter (script : list attempt) :
  forall s, counter_ok s ->
    counter_values (trace_of (loop script s)) =
      counter_spec (reconnectAttempt s) (trace_of (loop script s)) /\
    reconnectAttempt (state_of (loop script s)) =
      failures_since_subscribe (reconnectAttempt s) (trace_of (loop script s)).
Proof.
  induction script as [|a script IH]; intros s Hs.
  - simpl. auto.
  - turn_cases a script s Hs; unfold state_of, trace_of; simpl.
    + inversion HL as [H| |r h H Hr]; subst; simpl.
      * auto.
      * rewrite counter_values_handles, counter_spec_handles_nil, failures_handles_nil.
        auto.
    + inversion HL as [ |e' tr' H [Ht|Ht]|r h H Hr]; subst; simpl.
      * auto.
      * auto.
      * rewrite counter_values_app, counter_values_handles, counter_spec_handles,
          failures_handles. simpl. auto.
    + destruct (IH _ (counter_ok_retry _ s1 Hn)) as [I1 I2].
      unfold state_of, trace_of in I1, I2. simpl in I1, I2.
      inversion HL as [ |e' tr' H [Ht|Ht]|r h H Hr]; subst; simpl.
      * rewrite I1, I2. auto.
      * rewrite I1, I2. auto.
      * rewrite counter_values_app, counter_values_handles, counter_spec_handles,
          failures_handles. simpl. simpl in I1, I2. rewrite I1, I2. auto.
Qed.

(** C2: along every run of [Start] the values assigned to
    [reconnectAttempt] are the ones the rule gives (0 at each successful
    subscribe, one more after each failed session), and the counter at the
    end of the run is the number of failed sessions since the last
    successful subscribe (on top of the initial value when there was none). *)
Theorem counter_counts_consecutive_failures
    (url_Parse : string -> goerror) (script : list attempt) (s : RedisSubscriber) :
  0 <= reconnectAttempt s < maxInt ->
  counter_values (trace_of (Start url_Parse script s)) =
    counter_spec (reconnectAttempt s) (trace_of (Start url_Parse script s)) /\
  reconnectAttempt (state_of (Start url_Parse script s)) =
    failures_since_subscribe (reconnectAttempt s) (trace_of (Start url_Parse script s)).
Proof.
  intros Hs. unfold Start. destruct (url_Parse (url s)).
  - split; reflexivity.
  - exact (loop_counter script s Hs).
Qed.

(** Three dial failures, then a success: the counter takes the values
    1, 2, 3, then 0. *)
Lemma counter_counts_consecutive_failures_witness :
  let script := [dial_refused; dial_refused; dial_refused;
                 dial_accepted [Receive (redis.Subscription "subscribe" "__anycable__" 1)] 0] in
  let run := Start parse_rejecting_ctl script sample_subscriber in
  0 <= reconnectAttempt sample_subscriber < maxInt /\
  counter_values (trace_of run) = [1; 2; 3; 0] /\
  counter_spec 0 (trace_of run) = [1; 2; 3; 0] /\
  reconnectAttempt (state_of run) = 0 /\
  failures_since_subscribe 0 (trace_of run) = 0.
Proof.
  intros script run.
  assert (H : 0 <= reconnectAttempt sample_subscriber < maxInt)
    by (vm_compute; split; congruence).
  destruct (counter_counts_consecutive_failures parse_rejecting_ctl script _ H) as [H1 H2].
  assert (V : counter_values (trace_of run) = [1; 2; 3; 0]) by reflexivity.
  assert (F : reconnectAttempt (state_of run) = 0) by reflexivity.
  split; [exact H|]. split; [exact V|].
  split; [rewrite <- V; symmetry; exact H1|].
  split; [exact F|].
  rewrite <- F. symmetry. exact H2.
Defined.

(** ** Counting sessions and sleeps *)

Lemma loop_app (pre tail : list attempt) :
  forall s,
    loop (pre ++ tail) s =
    match loop pre s with
    | (Looping, s1, tr1) =>
        (outcome_of (loop tail s1), state_of (loop tail s1), tr1 ++ trace_of (loop tail s1))
    | r => r
    end.
Proof.
  induction pre as [|a pre IH]; intros s; simpl.
  - now destruct (loop tail s) as [[o s2] tr2].
  - destruct (listen a s) as [[[r|] s1] tr]; [|reflexivity].
    destruct (add (reconnectAttempt s1) 1 >=? maxReconnectAttempts); [reflexivity|].
    destruct (nextRetry (draw a) (add (reconnectAttempt s1) 1)); [|reflexivity].
    rewrite IH.
    destruct (loop pre (set_reconnectAttempt (add (reconnectAttempt s1) 1) s1))
      as [[o s3] tr3].
    destruct o; try reflexivity.
    unfold outcome_of, state_of, trace_of. simpl.
    rewrite <- !app_assoc. reflexivity.
Qed.

Lemma count_running (tr : list obs) :
  sessions (OListen :: tr) = S (sessions tr) /\ sleeps (OListen :: tr) = sleeps tr.
Proof. split; reflexivity. Qed.

Lemma count_stop (tr : list obs) (e : error) (n : Z) :
  sessions (OListen :: tr ++ [OWarn e; OCounter n]) = S (sessions tr) /\
  sleeps (OListen :: tr ++ [OWarn e; OCounter n]) = sleeps tr.
Proof.
  unfold sessions, sleeps. simpl. rewrite !filter_app, !length_app. simpl. lia.
Qed.

Lemma count_retry (tr t : list obs) (e : error) (n d : Z) :
  sessions (OListen :: tr ++ OWarn e :: OCounter n :: ONextRetry n :: OSleep d :: t)
    = S (sessions tr + sessions t) /\
  sleeps (OListen :: tr ++ OWarn e :: OCounter n :: ONextRetry n :: OSleep d :: t)
    = S (sleeps tr + sleeps t).
Proof.
  unfold sessions, sleeps. simpl. rewrite !filter_app, !length_app. simpl. lia.
Qed.

Lemma loop_sessions_le (pre : list attempt) :
  forall s, counter_ok s ->
    (sessions (trace_of (loop pre s)) <= List.length pre)%nat.
Proof.
  induction pre as [|a pre IH]; intros s Hs.
  - simpl. unfold sessions. simpl. lia.
  - turn_cases a pre s Hs; unfold trace_of; simpl;
      destruct (listened_quiet _ _ _ _ _ HL) as (Hq & _ & _).
    + rewrite (proj1 (count_running tr)), Hq. lia.
    + rewrite (proj1 (count_stop tr _ _)), Hq. lia.
    + specialize (IH _ (counter_ok_retry _ s1 Hn)). unfold trace_of in IH.
      rewrite (proj1 (count_retry tr _ _ _ _)), Hq. lia.
Qed.

Lemma loop_looping (pre : list attempt) :
  forall s, counter_ok s -> outcome_of (loop pre s) = Looping ->
    sessions (trace_of (loop pre s)) = List.length pre /\
    sleeps (trace_of (loop pre s)) = List.length pre /\
    counter_ok (state_of (loop pre s)) /\
    (forall a, fails_early a (state_of (loop pre s)) = fails_early a s).
Proof.
  induction pre as [|a pre IH]; intros s Hs.
  - simpl. intros _. split; [reflexivity|]. split; [reflexivity|].
    split; [exact Hs | reflexivity].
  - turn_cases a pre s Hs; unfold outcome_of, state_of, trace_of; simpl;
      try discriminate.
    intros Ho.
    destruct (IH _ (counter_ok_retry _ s1 Hn) Ho) as (I1 & I2 & I3 & I4).
    unfold state_of, trace_of in I1, I2, I3, I4.
    destruct (listened_quiet _ _ _ _ _ HL) as (Hq1 & Hq2 & _).
    rewrite (proj1 (count_retry tr _ _ _ _)), (proj2 (count_retry tr _ _ _ _)).
    rewrite Hq1, Hq2, I1, I2.
    split; [reflexivity|]. split; [reflexivity|]. split; [exact I3|].
    intros b. rewrite I4.
    inversion HL; subst; reflexivity.
Qed.

(** From a counter [c] of 0 to 4, [5 - c] sessions that fail before any
    subscribe end the run. *)
Lemma loop_failures (w : list attempt) :
  forall s,
    0 <= reconnectAttempt s < maxReconnectAttempts ->
    Forall (fun a => fails_early a s = true) w ->
    maxReconnectAttempts - reconnectAttempt s <= Z.of_nat (List.length w) ->
    outcome_of (loop w s) = Stopped exceeded /\
    Z.of_nat (sessions (trace_of (loop w s))) = maxReconnectAttempts - reconnectAttempt s /\
    Z.of_nat (sleeps (trace_of (loop w s))) = maxReconnectAttempts - 1 - reconnectAttempt s.
Proof.
  induction w as [|a w IH]; intros s Hc Hw Hlen.
  - unfold maxReconnectAttempts in *. simpl List.length in Hlen. lia.
  - assert (Hs : counter_ok s).
    { unfold counter_ok, maxInt, intBits, maxReconnectAttempts in *. lia. }
    inversion Hw as [|a' w' Ha Hw']; subst.
    turn_cases a w s Hs; unfold outcome_of, trace_of; cbn [fst snd app].
    + inversion HL; congruence.
    + inversion HL as [ |e' tr' H Ht|r h H Hr]; subst; [|congruence].
      destruct (listened_quiet _ _ _ _ _ HL) as (Hq1 & Hq2 & _).
      rewrite (proj1 (count_stop _ _ _)), (proj2 (count_stop _ _ _)), Hq1, Hq2.
      split; [reflexivity|]. unfold maxReconnectAttempts in *. lia.
    + inversion HL as [ |e' tr' H Ht|r h H Hr]; subst; [|congruence].
      destruct (listened_quiet _ _ _ _ _ HL) as (Hq1 & Hq2 & _).
      destruct (IH (set_reconnectAttempt (reconnectAttempt s1 + 1) s1)) as (I1 & I2 & I3).
      * simpl. unfold maxReconnectAttempts in *. lia.
      * exact Hw'.
      * simpl reconnectAttempt. simpl List.length in Hlen. lia.
      * unfold outcome_of, trace_of in I1, I2, I3. cbn [reconnectAttempt set_reconnectAttempt] in I2, I3.
        split; [exact I1|].
        rewrite (proj1 (count_retry _ _ _ _ _)), (proj2 (count_retry _ _ _ _ _)).
        rewrite Hq1, Hq2. unfold maxReconnectAttempts in *. lia.
Qed.

(** A session followed by four sessions that fail before any subscribe:
    the run cannot go past them, and if it reaches the fifth it stops
    there. *)
Lemma loop_window (a1 : attempt) (w : list attempt) (s : RedisSubscriber) :
  counter_ok s ->
  List.length w = 4%nat ->
  Forall (fun a => fails_early a s = true) w ->
  outcome_of (loop (a1 :: w) s) <> Looping /\
  ((5 <= sessions (trace_of (loop (a1 :: w) s)))%nat ->
   outcome_of (loop (a1 :: w) s) = Stopped exceeded /\
   sessions (trace_of (loop (a1 :: w) s)) = 5%nat /\
   sleeps (trace_of (loop (a1 :: w) s)) = 4%nat).
Proof.
  intros Hs Hlen Hw.
  turn_cases a1 w s Hs; unfold outcome_of, trace_of; cbn [fst snd app];
    destruct (listened_quiet _ _ _ _ _ HL) as (Hq1 & Hq2 & _).
  - split; [discriminate|].
    rewrite (proj1 (count_running _)), Hq1. lia.
  - split; [discriminate|].
    rewrite (proj1 (count_stop _ _ _)), Hq1. lia.
  - destruct (loop_failures w (set_reconnectAttempt (reconnectAttempt s1 + 1) s1))
      as (I1 & I2 & I3).
    + cbn [reconnectAttempt set_reconnectAttempt]. lia.
    + inversion HL; subst; exact Hw.
    + cbn [reconnectAttempt set_reconnectAttempt]. rewrite Hlen.
      unfold maxReconnectAttempts in *. lia.
    + unfold outcome_of, trace_of in I1, I2, I3.
      cbn [reconnectAttempt set_reconnectAttempt] in I2, I3.
      rewrite I1. split; [discriminate|].
      rewrite (proj1 (count_retry _ _ _ _ _)), (proj2 (count_retry _ _ _ _ _)).
      rewrite Hq1, Hq2. unfold maxReconnectAttempts in *. intros H5.
      split; [reflexivity|]. lia.
Qed.

(** C1: in every run of [Start] that reaches five consecutive failed
    sessions with no successful subscribe between them (the last four fail
    before subscribing), [Start] returns "Redis reconnect attempts exceeded"
    right after the fifth: the fifth is the last session attempted, every
    session but the last is followed by one sleep, and what the script holds
    beyond the fifth plays no part. *)
Theorem five_failures_stop
    (url_Parse : string -> goerror) (s : RedisSubscriber)
    (pre : list attempt) (a1 : attempt) (w rest : list attempt) :
  url_Parse (url s) = None ->
  0 <= reconnectAttempt s < maxInt ->
  List.length w = 4%nat ->
  Forall (fun a => fails_early a s = true) w ->
  (List.length pre + 5 <= sessions (trace_of (Start url_Parse (pre ++ a1 :: w ++ rest) s)))%nat ->
  outcome_of (Start url_Parse (pre ++ a1 :: w ++ rest) s)
    = Stopped (errors_New "Redis reconnect attempts exceeded") /\
  sessions (trace_of (Start url_Parse (pre ++ a1 :: w ++ rest) s)) = (List.length pre + 5)%nat /\
  sleeps (trace_of (Start url_Parse (pre ++ a1 :: w ++ rest) s)) = (List.length pre + 4)%nat /\
  Start url_Parse (pre ++ a1 :: w ++ rest) s = Start url_Parse (pre ++ a1 :: w) s.
Proof.
  intros Hurl Hs Hlen Hw. unfold Start. rewrite Hurl.
  rewrite (loop_app pre (a1 :: w ++ rest)), (loop_app pre (a1 :: w)).
  pose proof (loop_sessions_le pre s Hs) as Hle.
  pose proof (loop_looping pre s Hs) as Hloop.
  destruct (loop pre s) as [[o s1] tr1].
  unfold trace_of in Hle. cbn [fst snd] in Hle.
  destruct o; try (unfold trace_of; cbn [fst snd]; intros; exfalso; lia).
  destruct (Hloop eq_refl) as (L1 & L2 & L3 & L4).
  unfold state_of, trace_of in L1, L2, L3, L4. cbn [fst snd] in L1, L2, L3, L4.
  assert (Hw1 : Forall (fun a => fails_early a s1 = true) w).
  { eapply Forall_impl; [|exact Hw]. intros a Ha. cbn beta in *. now rewrite L4. }
  destruct (loop_window a1 w s1 L3 Hlen Hw1) as [Hnot Hfive].
  assert (HX : loop (a1 :: w ++ rest) s1 = loop (a1 :: w) s1).
  { change (a1 :: w ++ rest) with ((a1 :: w) ++ rest). rewrite loop_app.
    destruct (loop (a1 :: w) s1) as [[o' s'] t'].
    destruct o'; try reflexivity. exfalso. now apply Hnot. }
  rewrite HX. unfold outcome_of, trace_of. cbn [fst snd].
  rewrite sessions_app, sleeps_app, L1, L2. intros Hall.
  destruct Hfive as (F1 & F2 & F3); [unfold trace_of; lia|].
  unfold outcome_of, trace_of in F1, F2, F3.
  rewrite F1, F2, F3. repeat split.
Qed.

Lemma five_failures_stop_witness :
  let s := sample_subscriber in
  let pre := [dial_refused] in
  let a1 := dial_accepted [Receive (redis.Message "__anycable__"%string [x7b; x7d]);
                           Receive (redis.Error "EOF"%string); Send; Done] 5 in
  let w := [dial_refused; subscribe_refused; dial_refused; dial_refused] in
  let rest := [dial_accepted [] 0; dial_refused] in
  parse_rejecting_ctl (url s) = None /\
  0 <= reconnectAttempt s < maxInt /\
  List.length w = 4%nat /\
  Forall (fun a => fails_early a s = true) w /\
  (List.length pre + 5 <= sessions (trace_of (Start parse_rejecting_ctl (pre ++ a1 :: w ++ rest) s)))%nat /\
  outcome_of (Start parse_rejecting_ctl (pre ++ a1 :: w ++ rest) s)
    = Stopped (errors_New "Redis reconnect attempts exceeded") /\
  sessions (trace_of (Start parse_rejecting_ctl (pre ++ a1 :: w ++ rest) s)) = (List.length pre + 5)%nat /\
  sleeps (trace_of (Start parse_rejecting_ctl (pre ++ a1 :: w ++ rest) s)) = (List.length pre + 4)%nat /\
  Start parse_rejecting_ctl (pre ++ a1 :: w ++ rest) s = Start parse_rejecting_ctl (pre ++ a1 :: w) s.
Proof.
  intros s pre a1 w rest.
  assert (H1 : parse_rejecting_ctl (url s) = None) by reflexivity.
  assert (H2 : 0 <= reconnectAttempt s < maxInt) by (vm_compute; split; congruence).
  assert (H3 : List.length w = 4%nat) by reflexivity.
  assert (H4 : Forall (fun a => fails_early a s = true) w) by (repeat constructor).
  assert (H5 : (List.length pre + 5 <=
                sessions (trace_of (Start parse_rejecting_ctl (pre ++ a1 :: w ++ rest) s)))%nat)
    by (vm_compute; lia).
  repeat (split; [assumption|]).
  exact (five_failures_stop parse_rejecting_ctl s pre a1 w rest H1 H2 H3 H4 H5).
Defined.

(** ** A malformed URL *)

(** C6: when [url.Parse] rejects the configured URL, [Start] returns that
    error at once: no session is attempted, nothing is slept, and the
    subscriber (its counter included) is left as it was. *)
Theorem malformed_url_fails_fast
    (url_Parse : string -> goerror) (script : list attempt) (s : RedisSubscriber)
    (e : error) :
  url_Parse (url s) = Some e ->
  Start url_Parse script s = (Stopped (Some e), s, []) /\
  sessions (trace_of (Start url_Parse script s)) = 0%nat /\
  sleeps (trace_of (Start url_Parse script s)) = 0%nat /\
  counter_values (trace_of (Start url_Parse script s)) = [] /\
  reconnectAttempt (state_of (Start url_Parse script s)) = reconnectAttempt s.
Proof.
  intros H. unfold Start. rewrite H. repeat split.
Qed.

Lemma malformed_url_fails_fast_witness :
  let s := NewRedisSubscriber malformed_url false EmptyString EmptyString EmptyString
             "__anycable__" in
  let script := [dial_accepted [] 0; dial_refused] in
  parse_rejecting_ctl (url s) = Some "net/url: invalid control character in URL"%string /\
  Start parse_rejecting_ctl script s =
    (Stopped (Some "net/url: invalid control character in URL"%string), s, []) /\
  sessions (trace_of (Start parse_rejecting_ctl script s)) = 0%nat /\
  sleeps (trace_of (Start parse_rejecting_ctl script s)) = 0%nat /\
  counter_values (trace_of (Start parse_rejecting_ctl script s)) = [] /\
  reconnectAttempt (state_of (Start parse_rejecting_ctl script s)) = reconnectAttempt s.
Proof.
  intros s script.
  assert (H : parse_rejecting_ctl (url s)
              = Some "net/url: invalid control character in URL"%string) by reflexivity.
  split; [exact H|].
  exact (malformed_url_fails_fast parse_rejecting_ctl script s _ H).
Defined.

(** ** The sentinel pool *)

Lemma TestOnBorrow_master (c : redis.Conn) :
  poolTestOnBorrow c = None <-> sentinel.TestRole c "master" = true.
Proof.
  unfold poolTestOnBorrow. destruct (sentinel.TestRole c "master"); simpl.
  - split; reflexivity.
  - split; discriminate.
Qed.

Lemma TestOnBorrow_failed (c : redis.Conn) :
  sentinel.TestRole c "master" = false ->
  poolTestOnBorrow c = Some "Role check failed"%string.
Proof. unfold poolTestOnBorrow. now intros ->. Qed.

Lemma dial_open_master (s : RedisSubscriber) (net : list dial_try) (c : redis.Conn) :
  fst (redis.dial (pool s) net) = Some (redis.open c) ->
  sentinel.TestRole c "master" = true.
Proof.
  induction net as [|n net IH]; simpl; [discriminate|].
  destruct (poolDial s n) as [c'|e]; simpl; [|discriminate].
  destruct (poolTestOnBorrow c') eqn:Ht.
  - destruct (redis.dial (pool s) net) as [r l]. exact IH.
  - simpl. intros H; injection H as <-. now apply TestOnBorrow_master.
Qed.

Lemma Get_open_master (s : RedisSubscriber) (idle : list redis.Conn)
    (net : list dial_try) (c : redis.Conn) :
  fst (redis.Get (pool s) idle net) = Some (redis.open c) ->
  sentinel.TestRole c "master" = true.
Proof.
  induction idle as [|c' idle IH]; simpl; [apply dial_open_master|].
  destruct (poolTestOnBorrow c') eqn:Ht.
  - destruct (redis.Get (pool s) idle net) as [r l]. exact IH.
  - simpl. intros H; injection H as <-. now apply TestOnBorrow_master.
Qed.

Lemma dial_again (s : RedisSubscriber) (bad : list dial_try) (good : dial_try)
    (net : list dial_try) (c : redis.Conn) :
  Forall (fun n => exists c', poolDial s n = Ok c' /\ sentinel.TestRole c' "master" = false) bad ->
  poolDial s good = Ok c ->
  sentinel.TestRole c "master" = true ->
  fst (redis.dial (pool s) (bad ++ good :: net)) = Some (redis.open c) /\
  dials (snd (redis.dial (pool s) (bad ++ good :: net))) = S (List.length bad) /\
  closes (snd (redis.dial (pool s) (bad ++ good :: net))) = List.length bad.
Proof.
  intros Hbad Hgood Hrole.
  induction Hbad as [|n bad (c' & Hn & Hc') Hbad IH]; simpl.
  - rewrite Hgood. simpl.
    rewrite (proj2 (TestOnBorrow_master c) Hrole). simpl. auto.
  - rewrite Hn. simpl. rewrite (TestOnBorrow_failed c' Hc').
    destruct (redis.dial (pool s) (bad ++ good :: net)) as [r l].
    simpl in *. destruct IH as (I1 & I2 & I3). unfold dials, closes in *. simpl.
    auto.
Qed.

(** C8, with [Pool.Get] as the spec describes it: the pool that [listen]
    builds has max idle 3, max active 64, idle timeout 240 seconds and
    waits when exhausted; a connection it hands out has passed the
    primary-role check; and each pooled or dialled connection that fails the
    check is closed and the pool goes on, dialling again until a dial
    reaches a primary, which is the connection handed out. *)
Theorem sentinel_pool_checks_role (s : RedisSubscriber) :
  (redis.MaxIdle (pool s) = 3 /\ redis.MaxActive (pool s) = 64 /\
   redis.IdleTimeout (pool s) = 240 * time.Second /\ redis.Wait (pool s) = true) /\
  (forall c, redis.TestOnBorrow (pool s) c = None <-> sentinel.TestRole c "master" = true) /\
  (forall idle net c,
     fst (redis.Get (pool s) idle net) = Some (redis.open c) ->
     sentinel.TestRole c "master" = true) /\
  (forall idle bad good net c,
     Forall (fun c' => sentinel.TestRole c' "master" = false) idle ->
     Forall (fun n => exists c', poolDial s n = Ok c' /\
                        sentinel.TestRole c' "master" = false) bad ->
     poolDial s good = Ok c ->
     sentinel.TestRole c "master" = true ->
     fst (redis.Get (pool s) idle (bad ++ good :: net)) = Some (redis.open c) /\
     dials (snd (redis.Get (pool s) idle (bad ++ good :: net))) = S (List.length bad) /\
     closes (snd (redis.Get (pool s) idle (bad ++ good :: net)))
       = (List.length idle + List.length bad)%nat) /\
  (forall a c,
     sentinelsEnabled s = true ->
     connect a s = Some (Ok (redis.open c)) ->
     sentinel.TestRole c "master" = true).
Proof.
  split; [repeat split|].
  split; [intros c; apply TestOnBorrow_master|].
  split; [intros idle net c; apply Get_open_master|].
  split.
  - intros idle bad good net c Hidle Hbad Hgood Hrole.
    induction Hidle as [|c' idle Hc' Hidle IH]; simpl.
    + now apply dial_again.
    + rewrite (TestOnBorrow_failed c' Hc').
      destruct (redis.Get (pool s) idle (bad ++ good :: net)) as [r l].
      simpl in *. destruct IH as (I1 & I2 & I3). unfold dials, closes in *. simpl.
      auto.
  - intros a c Hmode. unfold connect. rewrite Hmode.
    destruct (fst (redis.Get (pool s) [] (network a))) as [h|] eqn:Hg; [|discriminate].
    intros H; injection H as ->. now apply (Get_open_master s [] (network a)).
Qed.

Lemma sentinel_pool_checks_role_witness :
  let s := sentinel_subscriber in
  let stale := {| redis.addr := "10.0.0.5:6379"; redis.role := "slave" |} in
  let primary := {| redis.addr := "10.0.0.7:6379"; redis.role := "master" |} in
  let net := [reaches "slave"; reaches "master"; reaches "slave"] in
  redis.Get (pool s) [stale] net =
    (Some (redis.open primary),
     [redis.Tested stale (Some "Role check failed"%string); redis.Closed stale;
      redis.Dialled (Ok {| redis.addr := "10.0.0.7:6379"; redis.role := "slave" |});
      redis.Tested {| redis.addr := "10.0.0.7:6379"; redis.role := "slave" |}
        (Some "Role check failed"%string);
      redis.Closed {| redis.addr := "10.0.0.7:6379"; redis.role := "slave" |};
      redis.Dialled (Ok primary); redis.Tested primary None]) /\
  sentinel.TestRole primary "master" = true /\
  dials (snd (redis.Get (pool s) [stale] ([reaches "slave"] ++ reaches "master" :: [reaches "slave"]))) = 2%nat /\
  closes (snd (redis.Get (pool s) [stale] ([reaches "slave"] ++ reaches "master" :: [reaches "slave"]))) = 2%nat /\
  connect {| dialURL := fun _ => Err "unused"%string; network := net; subscribe := None;
             schedule := []; draw := 0 |} s = Some (Ok (redis.open primary)).
Proof.
  intros s stale primary net.
  destruct (sentinel_pool_checks_role s) as (_ & _ & H3 & H4 & H5).
  assert (G : fst (redis.Get (pool s) [stale] net) = Some (redis.open primary)) by reflexivity.
  split; [reflexivity|].
  split; [exact (H3 [stale] net primary G)|].
  assert (B : Forall (fun n => exists c', poolDial s n = Ok c' /\
                                sentinel.TestRole c' "master" = false) [reaches "slave"]).
  { constructor; [|constructor].
    exists {| redis.addr := "10.0.0.7:6379"; redis.role := "slave" |}. split; reflexivity. }
  assert (I : Forall (fun c' => sentinel.TestRole c' "master" = false) [stale])
    by (repeat constructor).
  destruct (H4 [stale] [reaches "slave"] (reaches "master") [reaches "slave"] primary
              I B eq_refl eq_refl) as (_ & D & C).
  split; [exact D|]. split; [exact C|].
  reflexivity.
Defined.

(** * Further properties of the code *)

(** ** The live session *)

Lemma first_receive_error_returned (sched : list action) (r : goerror) :
  fg (exec sched live) = Returned r ->
  exists e rest, r = Some e /\ errors_of (offered sched) = e :: rest.
Proof.
  intros Hfg.
  destruct (returned_first_error _ r (inv_exec sched live inv_live) Hfg)
    as (_ & e & rest' & -> & Hrec).
  destruct (received_offered sched) as [H1 H2].
  destruct (errors_of (offered sched)) as [|e0 l] eqn:E.
  - destruct (H1 eq_refl) as [Hr _]. rewrite Hr, E in Hrec. discriminate.
  - destruct (H2 e0 l eq_refl) as [x Hx]. rewrite Hx in Hrec.
    injection Hrec as -> _. now exists e, l.
Qed.

(** X1: whatever path ends a live session, [listen] returns the first error
    that [psc.Receive()] yields in the session; later errors and ping
    errors are never returned. *)
Theorem listen_returns_first_receive_error (sched : list action) (r : goerror) :
  fg (exec sched live) = Returned r ->
  exists e rest, r = Some e /\ errors_of (offered sched) = e :: rest.
Proof.
  intros Hfg.
  pose proof (inv_exec sched live inv_live) as Hinv.
  destruct (returned_first_error _ r Hinv Hfg) as (_ & e & rest' & -> & Hrec).
  destruct (received_offered sched) as [Hnone Hsome].
  destruct (errors_of (offered sched)) as [|e0 l] eqn:E.
  - destruct (Hnone eq_refl) as [Hr _]. rewrite Hr, E in Hrec. discriminate.
  - destruct (Hsome e0 l eq_refl) as [x Hx]. rewrite Hx in Hrec.
    injection Hrec as -> _. now exists e, l.
Qed.

Lemma listen_returns_first_receive_error_witness :
  let sched := [Receive (redis.Pong "p"%string); Tick (Some "broken pipe"%string);
                Receive (redis.Error "EOF"%string); Send;
                Receive (redis.Error "closed"%string); Done] in
  fg (exec sched live) = Returned (Some "EOF"%string) /\
  exists e rest, Some "EOF"%string = Some e /\ errors_of (offered sched) = e :: rest.
Proof.
  intros sched.
  assert (H : fg (exec sched live) = Returned (Some "EOF"%string)) by reflexivity.
  split; [exact H | exact (listen_returns_first_receive_error sched _ H)].
Defined.

(** X2: a session that got past the subscribe does not return as long as
    [psc.Receive()] yields no error: failed pings alone leave [listen]
    blocked on [<-done]. *)
Theorem no_receive_error_no_return (a : attempt) (s : RedisSubscriber) :
  fails_early a s = false ->
  errors_of (offered (schedule a)) = [] ->
  fst (fst (listen a s)) = LRunning /\
  returned (exec (schedule a) live) = LRunning.
Proof.
  intros Hlive Herr.
  assert (Hrun : returned (exec (schedule a) live) = LRunning).
  { unfold returned. destruct (fg (exec (schedule a) live)) eqn:Hfg; try reflexivity.
    destruct (first_receive_error_returned (schedule a) r Hfg) as (e & rest & _ & H).
    rewrite Herr in H. discriminate. }
  split; [|exact Hrun].
  unfold fails_early in Hlive. unfold listen.
  destruct (connect a s) as [[c|e]|]; try reflexivity; try discriminate.
  destruct (redis.Subscribe c (subscribe a)); [discriminate|]. exact Hrun.
Qed.

Lemma no_receive_error_no_return_witness :
  let a := dial_accepted [Receive (redis.Message "__anycable__"%string [x7b; x7d]);
                          Tick None; Tick (Some "write tcp: broken pipe"%string);
                          Done; Receive (redis.Pong EmptyString); Done] 0 in
  fails_early a sample_subscriber = false /\
  errors_of (offered (schedule a)) = [] /\
  fst (fst (listen a sample_subscriber)) = LRunning /\
  returned (exec (schedule a) live) = LRunning /\
  fg (exec (schedule a) live) = Draining.
Proof.
  intros a.
  assert (H1 : fails_early a sample_subscriber = false) by reflexivity.
  assert (H2 : errors_of (offered (schedule a)) = []) by reflexivity.
  destruct (no_receive_error_no_return a sample_subscriber H1 H2) as [R1 R2].
  repeat (split; [assumption|]). reflexivity.
Defined.

(** X3: in a session at most two values are ever sent on [done], and never
    more than one beyond what the foreground has read. *)
Theorem done_written_at_most_twice (sched : list action) :
  (List.length (written (exec sched live)) <= 2)%nat /\
  (List.length (written (exec sched live))
     <= S (List.length (taken (exec sched live))))%nat.
Proof.
  pose proof (inv_exec sched live inv_live) as [_ _ H3 H4 H5 _ _ _].
  rewrite H3, length_app. unfold doneCap in H4.
  rewrite H5. destruct (fg (exec sched live)); simpl; lia.
Qed.

(** X4: the goroutine outlives the session and then blocks for good.  Once
    [listen] has returned, a goroutine standing at [done <- v] with the
    buffer full is never released: no later move changes anything. *)
Theorem leaked_goroutine_blocks_forever
    (st : session) (r : goerror) (v : error) (more : list action) :
  fg st = Returned r ->
  bg st = Sending v ->
  done st <> [] ->
  exec more st = st.
Proof.
  intros Hfg Hbg Hd.
  induction more as [|a more IH]; simpl; [reflexivity|].
  assert (Hm : move st a = st).
  { unfold move, step. destruct a; rewrite ?Hbg, ?Hfg; try reflexivity.
    destruct (done st) as [|x l]; [congruence|]. reflexivity. }
  rewrite Hm. exact IH.
Qed.

Lemma leaked_goroutine_blocks_forever_witness :
  let eof := redis.Error "EOF"%string in
  let st := exec [Receive eof; Send; Done; Receive eof; Send; Receive eof] live in
  let more := [Send; Receive (redis.Message "__anycable__"%string [x7b; x7d]);
               Tick None; Done; Send] in
  fg st = Returned (Some "EOF"%string) /\
  bg st = Sending "EOF"%string /\
  done st <> [] /\
  exec more st = st.
Proof.
  intros eof st more.
  assert (H1 : fg st = Returned (Some "EOF"%string)) by reflexivity.
  assert (H2 : bg st = Sending "EOF"%string) by reflexivity.
  assert (H3 : done st <> []) by (vm_compute; discriminate).
  repeat (split; [assumption|]).
  exact (leaked_goroutine_blocks_forever st _ _ more H1 H2 H3).
Defined.

Lemma repeat_snoc (A : Type) (x : A) (k : nat) : repeat x k ++ [x] = repeat x (S k).
Proof. induction k as [|k IH]; simpl; [reflexivity|]. now rewrite IH. Qed.

Lemma pings_move (a : action) (st : session) :
  inv st ->
  (exists k, pings st = repeat None k ++ failed_ping (err st)) ->
  exists k, pings (move st a) = repeat None k ++ failed_ping (err (move st a)).
Proof.
  intros Hinv [k Hk]. unfold move, step.
  destruct a as [v| |r|].
  - destruct (bg st); [destruct v|]; simpl; eauto.
  - destruct (bg st); simpl; eauto.
    destruct (List.length (done st) <? doneCap)%nat; simpl; eauto.
  - destruct (fg st) eqn:Hfg; simpl; eauto.
    rewrite (inv_select _ Hinv Hfg) in Hk. simpl in Hk. rewrite app_nil_r in Hk.
    destruct r as [e|]; simpl; rewrite Hk.
    + now exists k.
    + exists (S k). now rewrite app_nil_r, repeat_snoc.
  - destruct (fg st), (done st); simpl; eauto.
Qed.

Lemma pings_exec (sched : list action) (st : session) :
  inv st ->
  (exists k, pings st = repeat None k ++ failed_ping (err st)) ->
  exists k, pings (exec sched st) = repeat None k ++ failed_ping (err (exec sched st)).
Proof.
  revert st. induction sched as [|a sched IH]; intros st Hinv H; simpl; [exact H|].
  apply IH; [now apply inv_move | now apply pings_move].
Qed.

(** X5: a session stops pinging at the first failed ping: all pings before
    the last succeeded, a failed one is the last ever sent, and
    [psc.Unsubscribe()] has been called exactly when a ping has failed (a
    session ended by a receive error alone never unsubscribes). *)
Theorem pings_stop_at_first_failure (sched : list action) :
  (exists k, pings (exec sched live)
             = repeat None k ++ failed_ping (err (exec sched live))) /\
  (unsubscribed (exec sched live) = true <-> err (exec sched live) <> None) /\
  (err (exec sched live) <> None -> fg (exec sched live) <> Selecting).
Proof.
  pose proof (inv_exec sched live inv_live) as Hinv.
  split; [|split].
  - apply pings_exec; [exact inv_live|]. now exists 0%nat.
  - rewrite (inv_unsub _ Hinv). destruct (err (exec sched live)); split;
      congruence.
  - intros He Hs. apply He. now apply (inv_select _ Hinv).
Qed.

Lemma pings_stop_at_first_failure_witness :
  let sched := [Tick None; Tick None; Tick (Some "broken pipe"%string);
                Tick None; Tick (Some "again"%string)] in
  pings (exec sched live) = [None; None; Some "broken pipe"%string] /\
  err (exec sched live) <> None /\
  fg (exec sched live) <> Selecting /\
  unsubscribed (exec sched live) = true.
Proof.
  intros sched.
  destruct (pings_stop_at_first_failure sched) as (_ & H2 & H3).
  assert (E : err (exec sched live) <> None) by (vm_compute; discriminate).
  split; [reflexivity|]. split; [exact E|].
  split; [exact (H3 E) | exact (proj2 H2 E)].
Defined.

(** ** The supervisor *)

Lemma loop_stopped (script : list attempt) :
  forall s r, outcome_of (loop script s) = Stopped r -> r = exceeded.
Proof.
  induction script as [|a script IH]; intros s r; simpl; [discriminate|].
  destruct (listen a s) as [[[x|] s1] tr]; [|discriminate].
  destruct (add (reconnectAttempt s1) 1 >=? maxReconnectAttempts).
  - unfold outcome_of. simpl. now intros H; injection H as <-.
  - destruct (nextRetry (draw a) (add (reconnectAttempt s1) 1)); [|discriminate].
    specialize (IH (set_reconnectAttempt (add (reconnectAttempt s1) 1) s1) r).
    destruct (loop script (set_reconnectAttempt (add (reconnectAttempt s1) 1) s1))
      as [[o s3] tr'].
    exact IH.
Qed.

(** X6: [Start] never returns [nil].  It returns either the error of
    [url.Parse] or "Redis reconnect attempts exceeded"; session errors are
    logged, never returned. *)
Theorem Start_returns_parse_error_or_exceeded
    (url_Parse : string -> goerror) (script : list attempt) (s : RedisSubscriber)
    (r : goerror) :
  outcome_of (Start url_Parse script s) = Stopped r ->
  (exists e, url_Parse (url s) = Some e /\ r = Some e) \/
  (url_Parse (url s) = None /\
   r = Some "Redis reconnect attempts exceeded"%string).
Proof.
  unfold Start. destruct (url_Parse (url s)) as [e|].
  - intros H. injection H as <-. left. now exists e.
  - intros H. right. split; [reflexivity|]. exact (loop_stopped script s r H).
Qed.

Lemma Start_returns_parse_error_or_exceeded_witness :
  let script := [dial_refused; dial_refused; dial_refused; dial_refused; dial_refused] in
  outcome_of (Start parse_rejecting_ctl script sample_subscriber) = Stopped exceeded /\
  ((exists e, parse_rejecting_ctl (url sample_subscriber) = Some e /\ exceeded = Some e) \/
   (parse_rejecting_ctl (url sample_subscriber) = None /\
    exceeded = Some "Redis reconnect attempts exceeded"%string)).
Proof.
  intros script.
  assert (H : outcome_of (Start parse_rejecting_ctl script sample_subscriber)
              = Stopped exceeded) by reflexivity.
  split; [exact H|].
  exact (Start_returns_parse_error_or_exceeded parse_rejecting_ctl script _ _ H).
Defined.

Lemma loop_sleeps (script : list attempt) :
  forall s, counter_ok s ->
    sessions (trace_of (loop script s)) =
    match outcome_of (loop script s) with
    | Looping => sleeps (trace_of (loop script s))
    | _ => S (sleeps (trace_of (loop script s)))
    end.
Proof.
  induction script as [|a script IH]; intros s Hs.
  - reflexivity.
  - turn_cases a script s Hs; unfold outcome_of, trace_of; cbn [fst snd app];
      destruct (listened_quiet _ _ _ _ _ HL) as (Hq1 & Hq2 & _).
    + now rewrite (proj1 (count_running _)), (proj2 (count_running _)), Hq1, Hq2.
    + now rewrite (proj1 (count_stop _ _ _)), (proj2 (count_stop _ _ _)), Hq1, Hq2.
    + specialize (IH _ (counter_ok_retry _ s1 Hn)).
      unfold outcome_of, trace_of in IH.
      rewrite (proj1 (count_retry _ _ _ _ _)), (proj2 (count_retry _ _ _ _ _)).
      rewrite Hq1, Hq2, IH. simpl.
      now destruct (fst (fst (loop script
                 (set_reconnectAttempt (reconnectAttempt s1 + 1) s1)))).
Qed.

(** X7: [Start] sleeps exactly once between two sessions and never after
    the last one: while it is between sessions there are as many sleeps as
    sessions, and otherwise (in a session, or stopped) one sleep fewer. *)
Theorem one_sleep_between_sessions
    (url_Parse : string -> goerror) (script : list attempt) (s : RedisSubscriber) :
  url_Parse (url s) = None ->
  0 <= reconnectAttempt s < maxInt ->
  sessions (trace_of (Start url_Parse script s)) =
  match outcome_of (Start url_Parse script s) with
  | Looping => sleeps (trace_of (Start url_Parse script s))
  | _ => S (sleeps (trace_of (Start url_Parse script s)))
  end.
Proof.
  intros Hurl Hs. unfold Start. rewrite Hurl. exact (loop_sleeps script s Hs).
Qed.

Lemma one_sleep_between_sessions_witness :
  let script := [dial_refused;
                 dial_accepted [Receive (redis.Error "EOF"%string); Send; Done] 11;
                 subscribe_refused; dial_accepted [Tick None] 2; dial_refused] in
  parse_rejecting_ctl (url sample_subscriber) = None /\
  0 <= reconnectAttempt sample_subscriber < maxInt /\
  outcome_of (Start parse_rejecting_ctl script sample_subscriber) = InSession /\
  sleeps (trace_of (Start parse_rejecting_ctl script sample_subscriber)) = 3%nat /\
  sessions (trace_of (Start parse_rejecting_ctl script sample_subscriber)) = 4%nat.
Proof.
  intros script.
  assert (H1 : parse_rejecting_ctl (url sample_subscriber) = None) by reflexivity.
  assert (H2 : 0 <= reconnectAttempt sample_subscriber < maxInt)
    by (vm_compute; split; congruence).
  assert (O : outcome_of (Start parse_rejecting_ctl script sample_subscriber) = InSession)
    by reflexivity.
  assert (Z3 : sleeps (trace_of (Start parse_rejecting_ctl script sample_subscriber)) = 3%nat)
    by reflexivity.
  pose proof (one_sleep_between_sessions parse_rejecting_ctl script _ H1 H2) as H.
  rewrite O, Z3 in H.
  repeat (split; [assumption|]). exact H.
Defined.

Lemma sleep_values_app (t1 t2 : list obs) :
  sleep_values (t1 ++ t2) = sleep_values t1 ++ sleep_values t2.
Proof. unfold sleep_values. apply flat_map_app. Qed.

Lemma sleep_values_handles (h : list bytes) : sleep_values (map OHandle h) = [].
Proof. induction h; simpl; auto. Qed.

Lemma listened_no_sleep (a : attempt) (s s1 : RedisSubscriber) (r : lresult) (tr : list obs) :
  listened a s r s1 tr -> sleep_values tr = [].
Proof.
  intros [H|e tr' H [->| ->]|r' h H Hr]; simpl; try reflexivity.
  apply sleep_values_handles.
Qed.

(** The delays Start can ask for: attempts 1 to 4. *)
Lemma nextRetry_small (draw n d : Z) :
  1 <= n < maxReconnectAttempts ->
  nextRetry draw n = Some d ->
  minDelay n * time.Second <= d <= maxDelay n * time.Second.
Proof.
  intros Hn Hd. unfold maxReconnectAttempts in Hn.
  destruct (nextRetry_in_range draw n) as [r [Hr He]]; [unfold maxStep; lia|].
  rewrite He in Hd. injection Hd as <-.
  unfold minDelay, maxDelay, time.Second. nia.
Qed.

Lemma loop_sleep_bounds (script : list attempt) :
  forall s, counter_ok s ->
    Forall (fun d => 1 * time.Second <= d <= 91 * time.Second)
      (sleep_values (trace_of (loop script s))).
Proof.
  induction script as [|a script IH]; intros s Hs.
  - constructor.
  - turn_cases a script s Hs; unfold trace_of; cbn [fst snd app];
      pose proof (listened_no_sleep _ _ _ _ _ HL) as Hq.
    + change (OListen :: tr) with ([OListen] ++ tr).
      rewrite sleep_values_app, Hq. constructor.
    + change (OListen :: tr ++ ?x) with ([OListen] ++ tr ++ x).
      rewrite !sleep_values_app, Hq. constructor.
    + specialize (IH _ (counter_ok_retry _ s1 Hn)). unfold trace_of in IH.
      match goal with |- context [OListen :: tr ++ ?x :: ?y :: ?z :: ?w :: ?t] =>
        change (OListen :: tr ++ x :: y :: z :: w :: t)
          with ([OListen] ++ tr ++ [x; y; z] ++ [w] ++ t) end.
      rewrite !sleep_values_app, Hq. simpl.
      constructor; [|exact IH].
      pose proof (nextRetry_small _ _ _ Hn Hd) as Hb.
      unfold minDelay, maxDelay, time.Second, maxReconnectAttempts in *. nia.
Qed.

(** X8: every backoff [Start] sleeps lasts between 1 and 91 seconds. *)
Theorem every_sleep_between_1_and_91_seconds
    (url_Parse : string -> goerror) (script : list attempt) (s : RedisSubscriber) :
  0 <= reconnectAttempt s < maxInt ->
  Forall (fun d => 1 * time.Second <= d <= 91 * time.Second)
    (sleep_values (trace_of (Start url_Parse script s))).
Proof.
  intros Hs. unfold Start. destruct (url_Parse (url s)); [constructor|].
  exact (loop_sleep_bounds script s Hs).
Qed.

Lemma every_sleep_between_1_and_91_seconds_witness :
  let script := [dial_refused; subscribe_refused; subscribe_refused;
                 {| dialURL := dialURL dial_refused; network := []; subscribe := None;
                    schedule := []; draw := 15 |}; dial_refused] in
  0 <= reconnectAttempt sample_subscriber < maxInt /\
  sleep_values (trace_of (Start parse_rejecting_ctl script sample_subscriber))
    = [1 * time.Second; 13 * time.Second; 21 * time.Second; 91 * time.Second] /\
  Forall (fun d => 1 * time.Second <= d <= 91 * time.Second)
    (sleep_values (trace_of (Start parse_rejecting_ctl script sample_subscriber))).
Proof.
  intros script.
  assert (H : 0 <= reconnectAttempt sample_subscriber < maxInt)
    by (vm_compute; split; congruence).
  split; [exact H|]. split; [reflexivity|].
  exact (every_sleep_between_1_and_91_seconds parse_rejecting_ctl script _ H).
Defined.

Lemma budget_step (f : Z -> Z) (c : Z) :
  0 <= c < maxReconnectAttempts - 1 ->
  budget f c = f (c + 1) + budget f (c + 1).
Proof.
  unfold maxReconnectAttempts. intros H.
  assert (Hc : c = 0 \/ c = 1 \/ c = 2 \/ c = 3) by lia.
  destruct Hc as [->|[->|[->| ->]]]; unfold budget; simpl; lia.
Qed.

Lemma budget_bounds (c : Z) :
  0 <= c <= maxReconnectAttempts - 1 ->
  0 <= budget minDelay c /\ 0 <= budget maxDelay c /\
  (c = maxReconnectAttempts - 1 -> budget minDelay c = 0).
Proof.
  unfold maxReconnectAttempts. intros H.
  assert (Hc : c = 0 \/ c = 1 \/ c = 2 \/ c = 3 \/ c = 4) by lia.
  destruct Hc as [->|[->|[->|[->| ->]]]]; vm_compute; repeat split; congruence.
Qed.

Lemma total_sleep_retry (tr t : list obs) (e : error) (n d : Z) :
  sleep_values tr = [] ->
  total_sleep (OListen :: tr ++ OWarn e :: OCounter n :: ONextRetry n :: OSleep d :: t)
    = d + total_sleep t.
Proof.
  intros Hq. unfold total_sleep.
  change (OListen :: tr ++ OWarn e :: OCounter n :: ONextRetry n :: OSleep d :: t)
    with ([OListen] ++ tr ++ [OWarn e; OCounter n; ONextRetry n] ++ [OSleep d] ++ t).
  rewrite !sleep_values_app, Hq. reflexivity.
Qed.

Lemma total_sleep_stop (tr : list obs) (e : error) (n : Z) :
  sleep_values tr = [] ->
  total_sleep (OListen :: tr ++ [OWarn e; OCounter n]) = 0.
Proof.
  intros Hq. unfold total_sleep.
  change (OListen :: tr ++ [OWarn e; OCounter n])
    with ([OListen] ++ tr ++ [OWarn e; OCounter n]).
  rewrite !sleep_values_app, Hq. reflexivity.
Qed.

Lemma loop_total_sleep (script : list attempt) :
  forall s,
    0 <= reconnectAttempt s <= maxReconnectAttempts - 1 ->
    Forall (fun a => fails_early a s = true) script ->
    total_sleep (trace_of (loop script s))
      <= budget maxDelay (reconnectAttempt s) * time.Second /\
    (outcome_of (loop script s) = Stopped exceeded ->
     budget minDelay (reconnectAttempt s) * time.Second
       <= total_sleep (trace_of (loop script s))).
Proof.
  induction script as [|a script IH]; intros s Hc Hw.
  - destruct (budget_bounds _ Hc) as (_ & B & _).
    unfold outcome_of, trace_of, total_sleep, time.Second. simpl.
    split; [lia | discriminate].
  - assert (Hs : counter_ok s).
    { unfold counter_ok, maxInt, intBits, maxReconnectAttempts in *. lia. }
    inversion Hw as [|a' w' Ha Hw']; subst.
    turn_cases a script s Hs; unfold outcome_of, trace_of; cbn [fst snd app].
    + inversion HL; congruence.
    + inversion HL as [ |e' tr' H Ht|r h H Hr]; subst; [|congruence].
      rewrite (total_sleep_stop _ _ _ (listened_no_sleep _ _ _ _ _ HL)).
      destruct (budget_bounds _ Hc) as (_ & B & Z4).
      unfold time.Second. split; [lia|]. intros _. rewrite Z4; lia.
    + inversion HL as [ |e' tr' H Ht|r h H Hr]; subst; [|congruence].
      rewrite (total_sleep_retry _ _ _ _ _ (listened_no_sleep _ _ _ _ _ HL)).
      destruct (IH (set_reconnectAttempt (reconnectAttempt s1 + 1) s1)) as [I1 I2].
      * cbn [reconnectAttempt set_reconnectAttempt]. lia.
      * exact Hw'.
      * unfold outcome_of, trace_of in I1, I2.
        cbn [reconnectAttempt set_reconnectAttempt] in I1, I2.
        pose proof (nextRetry_small _ _ _ Hn Hd) as Hb.
        rewrite !(budget_step _ (reconnectAttempt s1)) by lia.
        split; [lia|]. intros Ho. specialize (I2 Ho). lia.
Qed.

(** X9: a subscriber that never gets to subscribe sleeps at most 176
    seconds in all before [Start] gives up, and at least 30 seconds when it
    does give up. *)
Theorem total_backoff_before_giving_up
    (url_Parse : string -> goerror) (script : list attempt) (s : RedisSubscriber) :
  url_Parse (url s) = None ->
  reconnectAttempt s = 0 ->
  Forall (fun a => fails_early a s = true) script ->
  total_sleep (trace_of (Start url_Parse script s)) <= 176 * time.Second /\
  (outcome_of (Start url_Parse script s) = Stopped exceeded ->
   30 * time.Second <= total_sleep (trace_of (Start url_Parse script s))).
Proof.
  intros Hurl Hc Hw. unfold Start. rewrite Hurl.
  destruct (loop_total_sleep script s) as [H1 H2].
  - rewrite Hc. unfold maxReconnectAttempts. lia.
  - exact Hw.
  - rewrite Hc in H1, H2. exact (conj H1 H2).
Qed.

Lemma total_backoff_before_giving_up_witness :
  let script := [dial_refused; subscribe_refused; subscribe_refused;
                 {| dialURL := dialURL dial_refused; network := []; subscribe := None;
                    schedule := []; draw := 15 |}; dial_refused; dial_refused] in
  parse_rejecting_ctl (url sample_subscriber) = None /\
  reconnectAttempt sample_subscriber = 0 /\
  Forall (fun a => fails_early a sample_subscriber = true) script /\
  outcome_of (Start parse_rejecting_ctl script sample_subscriber) = Stopped exceeded /\
  total_sleep (trace_of (Start parse_rejecting_ctl script sample_subscriber))
    = 126 * time.Second /\
  total_sleep (trace_of (Start parse_rejecting_ctl script sample_subscriber))
    <= 176 * time.Second /\
  30 * time.Second
    <= total_sleep (trace_of (Start parse_rejecting_ctl script sample_subscriber)).
Proof.
  intros script.
  assert (H1 : parse_rejecting_ctl (url sample_subscriber) = None) by reflexivity.
  assert (H2 : reconnectAttempt sample_subscriber = 0) by reflexivity.
  assert (H3 : Forall (fun a => fails_early a sample_subscriber = true) script)
    by (repeat constructor).
  assert (O : outcome_of (Start parse_rejecting_ctl script sample_subscriber)
              = Stopped exceeded) by reflexivity.
  destruct (total_backoff_before_giving_up parse_rejecting_ctl script _ H1 H2 H3)
    as [U L].
  repeat (split; [assumption|]).
  split; [reflexivity|]. split; [exact U | exact (L O)].
Defined.

(** X10: a successful subscribe wipes the history of failures: from a
    session that goes live onwards, a run is the same whatever the counter
    was before. *)
Theorem subscribe_forgets_failures
    (url_Parse : string -> goerror) (a : attempt) (rest : list attempt)
    (s : RedisSubscriber) (n m : Z) :
  url_Parse (url s) = None ->
  fails_early a s = false ->
  connect a s <> None ->
  Start url_Parse (a :: rest) (set_reconnectAttempt n s)
    = Start url_Parse (a :: rest) (set_reconnectAttempt m s).
Proof.
  intros Hurl Hlive Hconn. unfold Start. simpl url. rewrite Hurl.
  simpl. unfold listen.
  change (connect a (set_reconnectAttempt n s)) with (connect a s).
  change (connect a (set_reconnectAttempt m s)) with (connect a s).
  unfold fails_early in Hlive.
  destruct (connect a s) as [[c|e]|]; try congruence.
  destruct (redis.Subscribe c (subscribe a)); [discriminate|].
  reflexivity.
Qed.

Lemma subscribe_forgets_failures_witness :
  let a := dial_accepted [Receive (redis.Error "EOF"%string); Send; Done] 6 in
  let rest := [dial_refused; dial_refused; subscribe_refused] in
  parse_rejecting_ctl (url sample_subscriber) = None /\
  fails_early a sample_subscriber = false /\
  connect a sample_subscriber <> None /\
  Start parse_rejecting_ctl (a :: rest) (set_reconnectAttempt 4 sample_subscriber)
    = Start parse_rejecting_ctl (a :: rest) (set_reconnectAttempt 0 sample_subscriber) /\
  retry_arguments
    (trace_of (Start parse_rejecting_ctl (a :: rest)
                 (set_reconnectAttempt 4 sample_subscriber))) = [1; 2; 3; 4].
Proof.
  intros a rest.
  assert (H1 : parse_rejecting_ctl (url sample_subscriber) = None) by reflexivity.
  assert (H2 : fails_early a sample_subscriber = false) by reflexivity.
  assert (H3 : connect a sample_subscriber <> None) by (vm_compute; discriminate).
  repeat (split; [assumption|]).
  split; [exact (subscribe_forgets_failures parse_rejecting_ctl a rest _ 4 0 H1 H2 H3)|].
  reflexivity.
Defined.

(** X11: [Start] can be called again after it gave up, but the counter is
    not cleared: with a counter of 4 or more, a first session that fails
    before subscribing ends the run at once, with no sleep. *)
Theorem restart_after_giving_up
    (url_Parse : string -> goerror) (a : attempt) (rest : list attempt)
    (s : RedisSubscriber) :
  url_Parse (url s) = None ->
  maxReconnectAttempts - 1 <= reconnectAttempt s < maxInt ->
  fails_early a s = true ->
  outcome_of (Start url_Parse (a :: rest) s)
    = Stopped (errors_New "Redis reconnect attempts exceeded") /\
  sessions (trace_of (Start url_Parse (a :: rest) s)) = 1%nat /\
  sleeps (trace_of (Start url_Parse (a :: rest) s)) = 0%nat /\
  reconnectAttempt (state_of (Start url_Parse (a :: rest) s)) = reconnectAttempt s + 1.
Proof.
  intros Hurl Hc Ha. unfold Start. rewrite Hurl.
  assert (Hs : counter_ok s).
  { unfold counter_ok, maxReconnectAttempts in *. lia. }
  turn_cases a rest s Hs; unfold outcome_of, state_of, trace_of; cbn [fst snd app].
  - inversion HL; congruence.
  - inversion HL as [ |e' tr' H Ht|r h H Hr]; subst; [|congruence].
    destruct (listened_quiet _ _ _ _ _ HL) as (Hq1 & Hq2 & _).
    rewrite (proj1 (count_stop _ _ _)), (proj2 (count_stop _ _ _)), Hq1, Hq2.
    repeat split.
  - inversion HL as [ |e' tr' H Ht|r h H Hr]; subst; [|congruence].
    unfold maxReconnectAttempts in *. lia.
Qed.

Lemma restart_after_giving_up_witness :
  let script := [dial_refused; dial_refused; dial_refused; dial_refused; dial_refused] in
  let s := state_of (Start parse_rejecting_ctl script sample_subscriber) in
  let rest := [dial_accepted [] 0] in
  parse_rejecting_ctl (url s) = None /\
  maxReconnectAttempts - 1 <= reconnectAttempt s < maxInt /\
  fails_early subscribe_refused s = true /\
  reconnectAttempt s = 5 /\
  outcome_of (Start parse_rejecting_ctl (subscribe_refused :: rest) s)
    = Stopped (errors_New "Redis reconnect attempts exceeded") /\
  sessions (trace_of (Start parse_rejecting_ctl (subscribe_refused :: rest) s)) = 1%nat /\
  sleeps (trace_of (Start parse_rejecting_ctl (subscribe_refused :: rest) s)) = 0%nat /\
  reconnectAttempt (state_of (Start parse_rejecting_ctl (subscribe_refused :: rest) s))
    = reconnectAttempt s + 1.
Proof.
  intros script s rest.
  assert (H1 : parse_rejecting_ctl (url s) = None) by reflexivity.
  assert (H2 : maxReconnectAttempts - 1 <= reconnectAttempt s < maxInt)
    by (vm_compute; split; congruence).
  assert (H3 : fails_early subscribe_refused s = true) by reflexivity.
  repeat (split; [assumption|]).
  split; [reflexivity|].
  exact (restart_after_giving_up parse_rejecting_ctl subscribe_refused rest s H1 H2 H3).
Defined.

Lemma set_own_counter (s : RedisSubscriber) :
  s = set_reconnectAttempt (reconnectAttempt s) s.
Proof. now destruct s. Qed.

Lemma listen_state (a : attempt) (s : RedisSubscriber) :
  snd (fst (listen a s)) = set_reconnectAttempt (reconnectAttempt (snd (fst (listen a s)))) s.
Proof.
  pose proof (listen_listened a s) as HL.
  destruct (listen a s) as [[r s1] tr]. simpl in *.
  inversion HL; subst; [apply set_own_counter | apply set_own_counter | reflexivity].
Qed.

Lemma loop_config (script : list attempt) :
  forall s,
    state_of (loop script s)
      = set_reconnectAttempt (reconnectAttempt (state_of (loop script s))) s.
Proof.
  induction script as [|a script IH]; intros s.
  - apply set_own_counter.
  - simpl. pose proof (listen_state a s) as Hst.
    destruct (listen a s) as [[[x|] s1] tr]; simpl in Hst.
    + destruct (add (reconnectAttempt s1) 1 >=? maxReconnectAttempts).
      * unfold state_of. simpl. now rewrite Hst.
      * destruct (nextRetry (draw a) (add (reconnectAttempt s1) 1)).
        -- specialize (IH (set_reconnectAttempt (add (reconnectAttempt s1) 1) s1)).
           destruct (loop script (set_reconnectAttempt (add (reconnectAttempt s1) 1) s1))
             as [[o s3] tr'].
           unfold state_of in *. simpl in *. rewrite IH at 1. now rewrite Hst.
        -- unfold state_of. simpl. now rewrite Hst.
    + exact Hst.
Qed.

(** X12: [Start] and [listen] write no field of the subscriber but
    [reconnectAttempt]: URL, mode, sentinels, password, master name and
    channel are after any run what they were before. *)
Theorem Start_keeps_configuration
    (url_Parse : string -> goerror) (script : list attempt) (s : RedisSubscriber) :
  state_of (Start url_Parse script s)
    = set_reconnectAttempt (reconnectAttempt (state_of (Start url_Parse script s))) s.
Proof.
  unfold Start. destruct (url_Parse (url s)).
  - apply set_own_counter.
  - apply loop_config.
Qed.

Lemma loop_counter_range (script : list attempt) :
  forall s,
    0 <= reconnectAttempt s <= maxReconnectAttempts - 1 ->
    0 <= reconnectAttempt (state_of (loop script s)) <= maxReconnectAttempts /\
    (reconnectAttempt (state_of (loop script s)) = maxReconnectAttempts <->
     outcome_of (loop script s) = Stopped exceeded).
Proof.
  induction script as [|a script IH]; intros s Hc.
  - unfold outcome_of, state_of. simpl. split; [lia|]. split; [lia | discriminate].
  - assert (Hs : counter_ok s).
    { unfold counter_ok, maxInt, intBits, maxReconnectAttempts in *. lia. }
    assert (H1 : forall s1 r tr, listened a s r s1 tr ->
                   0 <= reconnectAttempt s1 <= maxReconnectAttempts - 1).
    { intros s1 r tr HL. inversion HL; subst; simpl; unfold maxReconnectAttempts in *; lia. }
    turn_cases a script s Hs; unfold outcome_of, state_of; cbn [fst snd];
      specialize (H1 _ _ _ HL).
    + split; [lia|]. split; [lia | discriminate].
    + cbn [reconnectAttempt set_reconnectAttempt].
      split; [lia|]. split; [reflexivity | lia].
    + apply IH. cbn [reconnectAttempt set_reconnectAttempt]. lia.
Qed.

(** X13: from a counter of 0 to 4 the counter never leaves 0..5, and it
    is 5 exactly when [Start] has returned "Redis reconnect attempts
    exceeded". *)
Theorem counter_is_five_exactly_when_given_up
    (url_Parse : string -> goerror) (script : list attempt) (s : RedisSubscriber) :
  url_Parse (url s) = None ->
  0 <= reconnectAttempt s <= maxReconnectAttempts - 1 ->
  0 <= reconnectAttempt (state_of (Start url_Parse script s)) <= maxReconnectAttempts /\
  (reconnectAttempt (state_of (Start url_Parse script s)) = maxReconnectAttempts <->
   outcome_of (Start url_Parse script s)
     = Stopped (errors_New "Redis reconnect attempts exceeded")).
Proof.
  intros Hurl Hc. unfold Start. rewrite Hurl. exact (loop_counter_range script s Hc).
Qed.

Lemma counter_is_five_exactly_when_given_up_witness :
  let script := [dial_refused; dial_accepted [Receive (redis.Error "EOF"%string); Send; Done] 1;
                 dial_refused; dial_refused; dial_refused; dial_refused; dial_refused] in
  let run := Start parse_rejecting_ctl script sample_subscriber in
  parse_rejecting_ctl (url sample_subscriber) = None /\
  0 <= reconnectAttempt sample_subscriber <= maxReconnectAttempts - 1 /\
  reconnectAttempt (state_of run) = maxReconnectAttempts /\
  outcome_of run = Stopped (errors_New "Redis reconnect attempts exceeded") /\
  sessions (trace_of run) = 6%nat.
Proof.
  intros script run.
  assert (H1 : parse_rejecting_ctl (url sample_subscriber) = None) by reflexivity.
  assert (H2 : 0 <= reconnectAttempt sample_subscriber <= maxReconnectAttempts - 1)
    by (vm_compute; split; congruence).
  assert (H3 : reconnectAttempt (state_of run) = maxReconnectAttempts) by reflexivity.
  repeat (split; [assumption|]).
  split; [|reflexivity].
  exact (proj1 (proj2 (counter_is_five_exactly_when_given_up parse_rejecting_ctl script _ H1 H2)) H3).
Defined.

(** ** The backoff calculator *)


(** X14: while [step * 4] does not wrap around, [nextRetry] panics exactly
    when [step] is zero or negative. *)
Theorem nextRetry_panics_iff_step_not_positive (draw step : Z) :
  - 2 ^ 61 <= step < 2 ^ 61 ->
  nextRetry draw step = None <-> step <= 0.
Proof.
  intros H. unfold nextRetry, mul.
  rewrite (wrap_small (step * 4)) by (unfold minInt, maxInt, intBits; lia).
  unfold rand.Intn. destruct (step * 4 <=? 0) eqn:E.
  - apply Z.leb_le in E. split; [lia | reflexivity].
  - apply Z.leb_gt in E. split; [discriminate | lia].
Qed.

Lemma nextRetry_panics_iff_step_not_positive_witness :
  - 2 ^ 61 <= 0 < 2 ^ 61 /\ nextRetry 5 0 = None /\
  - 2 ^ 61 <= -3 < 2 ^ 61 /\ nextRetry 5 (-3) = None.
Proof.
  assert (H0 : - 2 ^ 61 <= 0 < 2 ^ 61) by lia.
  assert (H3 : - 2 ^ 61 <= -3 < 2 ^ 61) by lia.
  split; [exact H0|].
  split; [apply (proj2 (nextRetry_panics_iff_step_not_positive 5 0 H0)); lia|].
  split; [exact H3|].
  apply (proj2 (nextRetry_panics_iff_step_not_positive 5 (-3) H3)); lia.
Defined.



(** ** utils/version.go *)

Lemma eqb_empty_false (s : string) :
  String.eqb s EmptyString = false <-> s <> EmptyString.
Proof. apply String.eqb_neq. Qed.

Lemma append_inj_l (p s1 s2 : string) :
  String.append p s1 = String.append p s2 -> s1 = s2.
Proof.
  induction p as [|c p IH]; simpl; [auto|].
  intros H. injection H as H. now apply IH.
Qed.

(** X16: after [init()] the version is never empty: a version set at link
    time is kept, and an unset one becomes "1.0.0-dev", followed by "-" and
    the commit sha when that is set. *)
Theorem Version_never_empty (b : utils.build) :
  utils.Version (utils.init b) <> EmptyString /\
  (utils.version b <> EmptyString -> utils.Version (utils.init b) = utils.version b) /\
  (utils.version b = EmptyString ->
   utils.Version (utils.init b) =
     if String.eqb (utils.sha b) EmptyString then "1.0.0-dev"%string
     else String.append "1.0.0-dev-" (utils.sha b)).
Proof.
  unfold utils.Version, utils.init.
  destruct (String.eqb (utils.version b) EmptyString) eqn:E.
  - apply String.eqb_eq in E.
    destruct (String.eqb (utils.sha b) EmptyString) eqn:S; simpl;
      (split; [discriminate|]); split; try reflexivity; congruence.
  - apply eqb_empty_false in E. split; [exact E|]. split; [reflexivity | congruence].
Qed.

Lemma Version_never_empty_witness :
  let b := {| utils.version := EmptyString; utils.sha := "3f2a91c" |} in
  let rel := {| utils.version := "1.2.0"; utils.sha := "3f2a91c" |} in
  utils.version rel <> EmptyString /\
  utils.Version (utils.init rel) = "1.2.0"%string /\
  utils.version b = EmptyString /\
  utils.Version (utils.init b) = "1.0.0-dev-3f2a91c"%string.
Proof.
  intros b rel.
  assert (H1 : utils.version rel <> EmptyString) by discriminate.
  assert (H2 : utils.version b = EmptyString) by reflexivity.
  split; [exact H1|].
  split; [exact (proj1 (proj2 (Version_never_empty rel)) H1)|].
  split; [exact H2|].
  exact (proj2 (proj2 (Version_never_empty b)) H2).
Defined.

(** X17: [init()] is idempotent and leaves the sha alone: running it again
    changes nothing. *)
Theorem init_idempotent (b : utils.build) :
  utils.init (utils.init b) = utils.init b /\
  utils.SHA (utils.init b) = utils.SHA b.
Proof.
  unfold utils.SHA, utils.init.
  destruct (String.eqb (utils.version b) EmptyString) eqn:E.
  - destruct (String.eqb (utils.sha b) EmptyString); simpl; split; reflexivity.
  - rewrite E. split; reflexivity.
Qed.

(** X18: development builds of different commits report different
    versions: with no version set at link time, the version determines the
    sha. *)
Theorem dev_version_determines_sha (b1 b2 : utils.build) :
  utils.version b1 = EmptyString ->
  utils.version b2 = EmptyString ->
  utils.Version (utils.init b1) = utils.Version (utils.init b2) ->
  utils.SHA b1 = utils.SHA b2.
Proof.
  unfold utils.Version, utils.SHA, utils.init. intros -> ->. simpl.
  destruct (String.eqb (utils.sha b1) EmptyString) eqn:E1;
    destruct (String.eqb (utils.sha b2) EmptyString) eqn:E2; simpl.
  - apply String.eqb_eq in E1, E2. congruence.
  - intros H. injection H as H. discriminate.
  - intros H. injection H as H. discriminate.
  - intros H. injection H as H. exact H.
Qed.

Lemma dev_version_determines_sha_witness :
  let b1 := {| utils.version := EmptyString; utils.sha := "3f2a91c" |} in
  let b2 := {| utils.version := EmptyString; utils.sha := "3f2a91c" |} in
  utils.version b1 = EmptyString /\
  utils.version b2 = EmptyString /\
  utils.Version (utils.init b1) = utils.Version (utils.init b2) /\
  utils.SHA b1 = utils.SHA b2.
Proof.
  intros b1 b2.
  assert (H1 : utils.version b1 = EmptyString) by reflexivity.
  assert (H2 : utils.version b2 = EmptyString) by reflexivity.
  assert (H3 : utils.Version (utils.init b1) = utils.Version (utils.init b2)) by reflexivity.
  repeat (split; [assumption|]).
  exact (dev_version_determines_sha b1 b2 H1 H2 H3).
Defined.

(** ** A new subscriber *)

Lemma attempts_ahead_step (c : Z) :
  0 <= c < maxReconnectAttempts - 1 ->
  filter (fun n => c <? n) [1; 2; 3; 4]
    = (c + 1) :: filter (fun n => c + 1 <? n) [1; 2; 3; 4].
Proof.
  unfold maxReconnectAttempts. intros H.
  assert (Hc : c = 0 \/ c = 1 \/ c = 2 \/ c = 3) by lia.
  destruct Hc as [->|[->|[->| ->]]]; reflexivity.
Qed.

Lemma loop_retry_sequence (w : list attempt) :
  forall s,
    0 <= reconnectAttempt s <= maxReconnectAttempts - 1 ->
    Forall (fun a => fails_early a s = true) w ->
    maxReconnectAttempts - reconnectAttempt s <= Z.of_nat (List.length w) ->
    retry_arguments (trace_of (loop w s))
      = filter (fun n => reconnectAttempt s <? n) [1; 2; 3; 4].
Proof.
  induction w as [|a w IH]; intros s Hc Hw Hlen.
  - unfold maxReconnectAttempts in *. simpl List.length in Hlen. lia.
  - assert (Hs : counter_ok s).
    { unfold counter_ok, maxInt, intBits, maxReconnectAttempts in *. lia. }
    inversion Hw as [|a' w' Ha Hw']; subst.
    turn_cases a w s Hs; unfold trace_of; cbn [fst snd app];
      destruct (listened_quiet _ _ _ _ _ HL) as (_ & _ & Hq).
    + inversion HL; congruence.
    + inversion HL as [ |e' tr' H Ht|r h H Hr]; subst; [|congruence].
      change (OListen :: tr ++ ?x) with ([OListen] ++ tr ++ x).
      rewrite !retry_arguments_app, Hq. cbn [retry_arguments flat_map app].
      assert (E : reconnectAttempt s1 = 4) by (unfold maxReconnectAttempts in *; lia).
      rewrite E. reflexivity.
    + inversion HL as [ |e' tr' H Ht|r h H Hr]; subst; [|congruence].
      match goal with |- context [OListen :: tr ++ ?x :: ?y :: ?z :: ?w :: ?t] =>
        change (OListen :: tr ++ x :: y :: z :: w :: t)
          with ([OListen] ++ tr ++ [x; y] ++ [z] ++ [w] ++ t) end.
      rewrite !retry_arguments_app, Hq. cbn [retry_arguments flat_map app].
      rewrite attempts_ahead_step by (unfold maxReconnectAttempts in *; lia).
      f_equal.
      specialize (IH (set_reconnectAttempt (reconnectAttempt s1 + 1) s1)).
      cbn [reconnectAttempt set_reconnectAttempt] in IH. unfold trace_of in IH.
      apply IH.
      * unfold maxReconnectAttempts in *. lia.
      * exact Hw'.
      * simpl List.length in Hlen. lia.
Qed.

(** X19: a subscriber built by [NewRedisSubscriber] starts with a counter
    of 0, so that when five sessions or more fail before subscribing,
    [Start] gives up after calling [nextRetry] with 1, 2, 3 and 4, in that
    order. *)
Theorem new_subscriber_backs_off_1_2_3_4
    (url_Parse : string -> goerror) (script : list attempt)
    (u : string) (sentinelsOn : bool) (sentinelList master pass chan : string) :
  let s := NewRedisSubscriber u sentinelsOn sentinelList master pass chan in
  url_Parse u = None ->
  Forall (fun a => fails_early a s = true) script ->
  (5 <= List.length script)%nat ->
  reconnectAttempt s = 0 /\
  outcome_of (Start url_Parse script s)
    = Stopped (errors_New "Redis reconnect attempts exceeded") /\
  retry_arguments (trace_of (Start url_Parse script s)) = [1; 2; 3; 4].
Proof.
  intros s Hurl Hw Hlen.
  split; [reflexivity|].
  unfold Start. change (url s) with u. rewrite Hurl.
  split.
  - apply (loop_failures script s); [simpl; unfold maxReconnectAttempts; lia | exact Hw |].
    simpl reconnectAttempt. unfold maxReconnectAttempts. lia.
  - rewrite (loop_retry_sequence script s); [reflexivity | | exact Hw |].
    + simpl. unfold maxReconnectAttempts. lia.
    + simpl reconnectAttempt. unfold maxReconnectAttempts. lia.
Qed.

Lemma new_subscriber_backs_off_1_2_3_4_witness :
  let s := NewRedisSubscriber "redis://localhost:6379/5" false EmptyString "mymaster"
             EmptyString "__anycable__" in
  let script := [dial_refused; subscribe_refused; dial_refused; dial_refused;
                 subscribe_refused; dial_accepted [] 0] in
  parse_rejecting_ctl "redis://localhost:6379/5" = None /\
  Forall (fun a => fails_early a s = true) (firstn 5 script) /\
  (5 <= List.length (firstn 5 script))%nat /\
  reconnectAttempt s = 0 /\
  outcome_of (Start parse_rejecting_ctl (firstn 5 script) s)
    = Stopped (errors_New "Redis reconnect attempts exceeded") /\
  retry_arguments (trace_of (Start parse_rejecting_ctl (firstn 5 script) s)) = [1; 2; 3; 4].
Proof.
  intros s script.
  assert (H1 : parse_rejecting_ctl "redis://localhost:6379/5" = None) by reflexivity.
  assert (H2 : Forall (fun a => fails_early a s = true) (firstn 5 script))
    by (repeat constructor).
  assert (H3 : (5 <= List.length (firstn 5 script))%nat) by (simpl; lia).
  repeat (split; [assumption|]).
  exact (new_subscriber_backs_off_1_2_3_4 parse_rejecting_ctl (firstn 5 script)
           "redis://localhost:6379/5" false EmptyString "mymaster" EmptyString
           "__anycable__" H1 H2 H3).
Defined.
